(** * Music Journal backend (index.js): a shallow embedding and its properties

    The Express handlers of [index.js] are embedded as functions over an
    explicit store ([Db]), an explicit session and an explicit clock value.
    JavaScript strings are sequences of UTF-16 code units, the regular
    expression of [passwordMeetsRequirements] is kept as a syntax tree and
    run by a backtracking matcher, request fields that the handlers coerce
    or hand to bcrypt as they are ([rating], [notes], the login password)
    are JavaScript values. *)

From Stdlib Require Import ZArith NArith QArith Qround String Ascii.
From stdpp Require Import base tactics option list numbers sorting gmap.

Close Scope Q_scope.
Local Open Scope nat_scope.

(** ** JavaScript strings *)

(** A string is the list of its UTF-16 code units. *)
Abbreviation CodeUnit := N (only parsing).
Abbreviation JsString := (list N) (only parsing).

(** The code units of an ASCII literal. *)
Definition js (s : string) : JsString :=
  List.map N_of_ascii (list_ascii_of_string s).

Definition in_range (lo hi c : N) : bool := ((lo <=? c) && (c <=? hi))%N.

Definition is_lower (c : N) : bool := in_range 97 122 c.
Definition is_upper (c : N) : bool := in_range 65 90 c.
Definition is_digit (c : N) : bool := in_range 48 57 c.

(** LineTerminator: LF, CR, LS, PS.  The regular-expression dot does not
    match them. *)
Definition is_line_terminator (c : N) : bool :=
  ((c =? 10) || (c =? 13) || (c =? 8232) || (c =? 8233))%N.

(** ** Regular expressions (the fragment index.js uses) *)

Module Regex.

(** One-character matchers: [.] and a bracket class of ranges, possibly
    negated. *)
Inductive Atom :=
| Dot
| Class (negated : bool) (ranges : list (N * N)).

Inductive t :=
| Bol                      (* ^ *)
| Eol                      (* $ *)
| One (a : Atom)
| Look (r : t)             (* (?=r) *)
| Star (a : Atom)          (* a* *)
| AtLeast (n : nat) (a : Atom)  (* a{n,} *)
| Seq (r1 r2 : t).

Definition atom_ok (a : Atom) (c : N) : bool :=
  match a with
  | Dot => negb (is_line_terminator c)
  | Class neg rs => xorb neg (existsb (fun r => in_range (fst r) (snd r) c) rs)
  end.

(** Continuation-passing backtracking: [i] is the index of the next code
    unit, [s] the rest of the input, [k] what has to match afterwards. *)
Fixpoint star (a : Atom) (i : nat) (s : JsString)
    (k : nat -> JsString -> bool) : bool :=
  match s with
  | c :: s' => (atom_ok a c && star a (S i) s' k) || k i s
  | [] => k i []
  end.

Fixpoint times (n : nat) (a : Atom) (i : nat) (s : JsString)
    (k : nat -> JsString -> bool) : bool :=
  match n with
  | O => k i s
  | S n' =>
      match s with
      | c :: s' => atom_ok a c && times n' a (S i) s' k
      | [] => false
      end
  end.

Fixpoint run (r : t) (i : nat) (s : JsString)
    (k : nat -> JsString -> bool) : bool :=
  match r with
  | Bol => (i =? 0) && k i s
  | Eol => match s with [] => k i s | _ :: _ => false end
  | One a =>
      match s with
      | c :: s' => atom_ok a c && k (S i) s'
      | [] => false
      end
  | Look r' => run r' i s (fun _ _ => true) && k i s
  | Star a => star a i s k
  | AtLeast n a => times n a i s (fun i' s' => star a i' s' k)
  | Seq r1 r2 => run r1 i s (fun i' s' => run r2 i' s' k)
  end.

Definition match_at (r : t) (i : nat) (s : JsString) : bool :=
  run r i s (fun _ _ => true).

(** [RegExp.prototype.test] without the g and y flags: a match starting
    at any index of the input. *)
Fixpoint search (r : t) (i : nat) (s : JsString) : bool :=
  match_at r i s ||
  match s with
  | [] => false
  | _ :: s' => search r (S i) s'
  end.

Definition test (r : t) (s : JsString) : bool := search r 0 s.

End Regex.

(** ** passwordMeetsRequirements *)

Definition lower_class : Regex.Atom := Regex.Class false [(97, 122)%N].
Definition upper_class : Regex.Atom := Regex.Class false [(65, 90)%N].
Definition digit_class : Regex.Atom := Regex.Class false [(48, 57)%N].
Definition special_class : Regex.Atom :=
  Regex.Class true [(65, 90)%N; (97, 122)%N; (48, 57)%N].

Definition ahead (a : Regex.Atom) : Regex.t :=
  Regex.Look (Regex.Seq (Regex.Star Regex.Dot) (Regex.One a)).

(** /^(?=.*[a-z])(?=.*[A-Z])(?=.*\d)(?=.*[^A-Za-z0-9]).{8,}$/ *)
Definition password_regex : Regex.t :=
  Regex.Seq Regex.Bol
    (Regex.Seq (ahead lower_class)
       (Regex.Seq (ahead upper_class)
          (Regex.Seq (ahead digit_class)
             (Regex.Seq (ahead special_class)
                (Regex.Seq (Regex.AtLeast 8 Regex.Dot) Regex.Eol))))).

Definition passwordMeetsRequirements (password : JsString) : bool :=
  Regex.test password_regex password.

(** The requirement in the words of the specification: length at least 8,
    a lowercase letter, an uppercase letter, a digit and a character
    outside [A-Za-z0-9]. *)
Definition is_special (c : N) : bool :=
  negb (is_upper c || is_lower c || is_digit c).

Definition spec_password_ok (p : JsString) : bool :=
  (8 <=? length p) && existsb is_lower p && existsb is_upper p
  && existsb is_digit p && existsb is_special p.

Definition no_line_terminator (p : JsString) : bool :=
  forallb (fun c => negb (is_line_terminator c)) p.

(** ** JavaScript values of the request bodies *)

Module JS.

(** A Number is NaN, an infinity or a finite value, kept as the exact
    rational it denotes (every binary64 value is one).  The sign of zero
    is not tracked: no operation of index.js observes it. *)
Inductive Num :=
| NaN
| Infinity (negative : bool)
| Finite (q : Q).

(** Primitive values: what a JSON body field holds when it is not an
    array or an object, and [Undefined] for an absent field. *)
Inductive Val :=
| Undefined
| Null
| Bool (b : bool)
| Number_ (n : Num)
| String_ (s : JsString).

(** ToBoolean. *)
Definition truthy (v : Val) : bool :=
  match v with
  | Undefined | Null => false
  | Bool b => b
  | Number_ NaN => false
  | Number_ (Infinity _) => true
  | Number_ (Finite q) => negb (Qeq_bool q 0)
  | String_ s => match s with [] => false | _ :: _ => true end
  end.

(** [a || b] *)
Definition or (a b : Val) : Val := if truthy a then a else b.

(** [v == null] *)
Definition eq_null (v : Val) : bool :=
  match v with
  | Undefined | Null => true
  | _ => false
  end.

(** *** Number(string): StringToNumber of ECMA-262 *)

(** WhiteSpace and LineTerminator code units. *)
Definition is_str_whitespace (c : N) : bool :=
  (is_line_terminator c || (c =? 9) || (c =? 11) || (c =? 12) || (c =? 32)
   || (c =? 160) || (c =? 5760) || in_range 8192 8202 c || (c =? 8239)
   || (c =? 8287) || (c =? 12288) || (c =? 65279))%N.

Fixpoint drop_ws (s : JsString) : JsString :=
  match s with
  | c :: s' => if is_str_whitespace c then drop_ws s' else s
  | [] => []
  end.

Definition trim (s : JsString) : JsString :=
  rev (drop_ws (rev (drop_ws s))).

Definition digit_value (base c : N) : option N :=
  let v := if is_digit c then Some (c - 48)%N
           else if in_range 97 102 c then Some (c - 87)%N
           else if in_range 65 70 c then Some (c - 55)%N
           else None in
  match v with
  | Some d => if (d <? base)%N then Some d else None
  | None => None
  end.

(** The longest prefix of digits of the base, as digit values, and the
    rest of the input. *)
Fixpoint span_digits (base : N) (s : JsString) : list N * JsString :=
  match s with
  | c :: s' =>
      match digit_value base c with
      | Some d => let '(ds, r) := span_digits base s' in (d :: ds, r)
      | None => ([], s)
      end
  | [] => ([], [])
  end.

Definition digits_value (base : N) (ds : list N) : Z :=
  fold_left (fun acc d => acc * Z.of_N base + Z.of_N d)%Z ds 0%Z.

(** Round a rational to binary64, ties to even; overflow gives an
    infinity. *)
Definition round_binary64 (q : Q) : Num :=
  let n := Z.abs (Qnum q) in
  let d := Zpos (Qden q) in
  let neg := (Qnum q <? 0)%Z in
  if (n =? 0)%Z then Finite 0 else
  let l0 := (Z.log2 n - Z.log2 d)%Z in
  let below := if (0 <=? l0)%Z then (n <? d * 2 ^ l0)%Z
               else (n * 2 ^ (- l0) <? d)%Z in
  let l := if below then (l0 - 1)%Z else l0 in
  let e := Z.max (l - 52) (-1074) in
  let num := if (e <? 0)%Z then (n * 2 ^ (- e))%Z else n in
  let den := if (e <? 0)%Z then d else (d * 2 ^ e)%Z in
  let m := (num / den)%Z in
  let r := (num mod den)%Z in
  let m' := if ((den <? 2 * r) || ((2 * r =? den) && Z.odd m))%Z
            then (m + 1)%Z else m in
  if ((971 <? e) || ((e =? 971) && (m' =? 2 ^ 53)))%Z then Infinity neg
  else
    let s := if neg then (- m')%Z else m' in
    Finite (Qred (if (e <? 0)%Z then Qmake s (Z.to_pos (2 ^ (- e)))
                  else inject_Z (s * 2 ^ e))).

(** m * 10^e as a rational. *)
Definition decimal (m e : Z) : Q :=
  if (e <? 0)%Z then Qmake m (Z.to_pos (10 ^ (- e)))
  else inject_Z (m * 10 ^ e).

(** ExponentPart_opt followed by the end of the literal. *)
Definition parse_exponent (s : JsString) : option Z :=
  match s with
  | [] => Some 0%Z
  | c :: s' =>
      if ((c =? 101) || (c =? 69))%N then
        let '(neg, s'') :=
          match s' with
          | 43%N :: t => (false, t)
          | 45%N :: t => (true, t)
          | _ => (false, s')
          end in
        match span_digits 10 s'' with
        | ((_ :: _) as ds, []) =>
            let v := digits_value 10 ds in
            Some (if neg then (- v)%Z else v)
        | _ => None
        end
      else None
  end.

(** StrUnsignedDecimalLiteral, as the rational it denotes rounded to
    binary64, or [None] when the input is not one. *)
Definition parse_unsigned_decimal (s : JsString) : option Num :=
  if bool_decide (s = js "Infinity") then Some (Infinity false) else
  let '(ip, r1) := span_digits 10 s in
  let '(fp, r2) :=
    match r1 with
    | 46%N :: t => span_digits 10 t
    | _ => ([], r1)
    end in
  match ip ++ fp with
  | [] => None
  | ds =>
      match parse_exponent r2 with
      | Some e =>
          Some (round_binary64
                  (decimal (digits_value 10 ds) (e - Z.of_nat (length fp))))
      | None => None
      end
  end.

Definition negate (n : Num) : Num :=
  match n with
  | NaN => NaN
  | Infinity b => Infinity (negb b)
  | Finite q => Finite (Qopp q)
  end.

(** NonDecimalIntegerLiteral: 0x, 0o and 0b prefixes (either case). *)
Definition radix_of_prefix (c : N) : option N :=
  if ((c =? 120) || (c =? 88))%N then Some 16%N
  else if ((c =? 111) || (c =? 79))%N then Some 8%N
  else if ((c =? 98) || (c =? 66))%N then Some 2%N
  else None.

Definition parse_numeric_literal (s : JsString) : option Num :=
  match s with
  | 43%N :: t => parse_unsigned_decimal t
  | 45%N :: t => negate <$> parse_unsigned_decimal t
  | 48%N :: c :: t =>
      match radix_of_prefix c with
      | Some base =>
          match span_digits base t with
          | ((_ :: _) as ds, []) =>
              Some (round_binary64 (inject_Z (digits_value base ds)))
          | _ => None
          end
      | None => parse_unsigned_decimal s
      end
  | _ => parse_unsigned_decimal s
  end.

Definition StringToNumber (s : JsString) : Num :=
  match trim s with
  | [] => Finite 0
  | t => default NaN (parse_numeric_literal t)
  end.

(** [Number(v)] *)
Definition Number (v : Val) : Num :=
  match v with
  | Undefined => NaN
  | Null => Finite 0
  | Bool b => if b then Finite 1 else Finite 0
  | Number_ n => n
  | String_ s => StringToNumber s
  end.

(** [Number.isInteger] *)
Definition isInteger (n : Num) : bool :=
  match n with
  | Finite q => Qeq_bool (inject_Z (Qfloor q)) q
  | _ => false
  end.

(** [a < b] on Numbers; any comparison with NaN is false. *)
Definition lt (a b : Num) : bool :=
  match a, b with
  | NaN, _ | _, NaN => false
  | Finite x, Finite y => negb (Qle_bool y x)
  | Infinity true, Infinity true => false
  | Infinity true, _ => true
  | _, Infinity false => match a with Infinity false => false | _ => true end
  | _, _ => false
  end.

Definition of_Z (z : Z) : Num := Finite (inject_Z z).

(** *** Objects used as maps *)

(** [o[k] = v] on an object created by the literal [{}]: own properties
    keyed by strings.  The key "__proto__" reaches the setter inherited
    from Object.prototype, which swaps the prototype (the value assigned
    here is always an object) and adds no own property; JSON
    serialisation lists own properties only. *)
Definition assign {V} (o : gmap JsString V) (k : JsString) (v : V)
    : gmap JsString V :=
  if bool_decide (k = js "__proto__") then o else <[k := v]> o.

End JS.

(** ** The store *)

Abbreviation Time := N (only parsing).

(** Text fields of a request body: [None] is an absent field. *)
Abbreviation Field := (option (list N)) (only parsing).

(** [!x] is false: the field is there and not the empty string. *)
Definition truthy_text (x : Field) : bool :=
  match x with
  | Some (_ :: _) => true
  | _ => false
  end.

Definition text (x : Field) : JsString :=
  match x with
  | Some s => s
  | None => []
  end.

(** [x || d] with a string default. *)
Definition text_or (x : Field) (d : JsString) : JsString :=
  if truthy_text x then text x else d.

(** [x || null] *)
Definition text_or_null (x : Field) : Field :=
  if truthy_text x then x else None.

(** Modelled from the spec: the table declarations (columns, keys,
    defaults and collations) are not part of index.js.  Following the data
    model of the specification, [users] has a generated id and a unique
    username, [albums] a generated id and a unique external_id,
    [user_albums] is unique on (user_id, album_id) with nullable notes and
    a created_at set when the row is inserted, [track_ratings] is unique on
    (user_id, album_id, track_id) with an updated_at set when the row is
    written. *)
Record User := {
  u_id : N;
  u_username : JsString;
  u_password_hash : JsString;
  u_created_at : Time }.

Record Album := {
  a_id : N;
  a_external_id : JsString;
  a_title : JsString;
  a_artist : JsString;
  a_cover_url : Field }.

Record UserAlbum := {
  ua_user_id : N;
  ua_album_id : N;
  ua_notes : JS.Val;
  ua_created_at : Time }.

Record TrackRating := {
  tr_user_id : N;
  tr_album_id : N;
  tr_track_id : JsString;
  tr_track_name : JsString;
  tr_rating : Z;
  tr_updated_at : Time }.

(** The tables in insertion order and the two AUTO_INCREMENT counters. *)
Record Db := {
  users : list User;
  albums : list Album;
  user_albums : list UserAlbum;
  track_ratings : list TrackRating;
  next_user_id : N;
  next_album_id : N }.

Definition empty_db : Db :=
  {| users := []; albums := []; user_albums := []; track_ratings := [];
     next_user_id := 1; next_album_id := 1 |}.

(** Modelled from the spec: how the store compares text in [WHERE] clauses
    and unique keys is fixed by the column collations of the missing table
    declarations; the specification asks for a case-sensitive exact match
    on usernames, and every text key is compared that way here. *)
Definition sql_text_eq (a b : JsString) : bool := bool_decide (a = b).

(** The hashing primitive of bcryptjs: [hash password cost salt] and
    [compare password hash].  The salt that [bcrypt.hash] draws is an input
    of the handler. *)
Class Bcrypt := {
  bcrypt_hash : JsString -> N -> JsString -> JsString;
  bcrypt_compare : JsString -> JsString -> bool }.

(** ** Sessions and responses *)

Record Session := {
  s_userId : option N;
  s_username : option JsString }.

Definition no_session : Session := {| s_userId := None; s_username := None |}.

Record AlbumRow := {
  r_external_id : JsString;
  r_title : JsString;
  r_artist : JsString;
  r_cover_url : Field;
  r_created_at : Time;
  r_notes : JS.Val }.

Record RatingEntry := {
  trackId : JsString;
  trackName : JsString;
  rating : Z }.

Inductive Body :=
| BError (error : string)
| BUser (id : N) (username : JsString)  (* { success: true, user: { id, username } } *)
| BSuccess                              (* { success: true } *)
| BAlbumSaved (albumId : N)             (* { success: true, albumId } *)
| BAlbums (rows : list AlbumRow)
| BRatings (map : gmap JsString RatingEntry).

Record Response := { status : N; body : Body }.

Definition json (b : Body) : Response := {| status := 200; body := b |}.
Definition fail (code : N) (msg : string) : Response :=
  {| status := code; body := BError msg |}.

(** The failures the specification names. *)
Definition MissingCredentials : Response :=
  fail 400 "Username and password required".
Definition WeakPasswordError : Response :=
  fail 400 "Password must be at least 8 characters and include uppercase, lowercase, number, and special character.".
Definition ConflictError : Response := fail 400 "Username already taken".
Definition AuthError : Response := fail 400 "Invalid username or password".
Definition NotAuthenticated : Response := fail 401 "Not authenticated".
Definition RatingError : Response :=
  fail 400 "Rating must be an integer between 1 and 5".

(** The answer of the [catch] of POST /api/login. *)
Definition LoginServerError : Response := fail 500 "Server error during login".

(** ** Helper functions of index.js *)

(** SELECT * FROM users WHERE username = ?, then [rows[0]]. *)
Definition findUserByUsername (db : Db) (username : JsString) : option User :=
  head (filter (fun u => sql_text_eq (u_username u) username = true) (users db)).

(** [requireLogin]: the user id of the session when it is truthy. *)
Definition requireLogin (sess : Session) : option N :=
  match s_userId sess with
  | Some uid => if (uid =? 0)%N then None else Some uid
  | None => None
  end.

(** The rows of albums that WHERE external_id = ? keeps. *)
Definition albums_with (db : Db) (externalId : JsString) : list Album :=
  filter (fun a => sql_text_eq (a_external_id a) externalId = true) (albums db).

(** SELECT id FROM albums WHERE external_id = ? *)
Definition select_album_ids (db : Db) (externalId : JsString) : list N :=
  a_id <$> albums_with db externalId.

(** INSERT INTO albums (external_id, title, artist, cover_url); the result
    is the generated id. *)
Definition insert_album (db : Db) (externalId title artist : JsString)
    (coverUrl : Field) : N * Db :=
  (next_album_id db,
   {| users := users db;
      albums := albums db ++
        [ {| a_id := next_album_id db; a_external_id := externalId;
             a_title := title; a_artist := artist; a_cover_url := coverUrl |} ];
      user_albums := user_albums db;
      track_ratings := track_ratings db;
      next_user_id := next_user_id db;
      next_album_id := N.succ (next_album_id db) |}).

Definition findOrCreateAlbum (db : Db) (externalId title artist : JsString)
    (coverUrl : Field) : N * Db :=
  match select_album_ids db externalId with
  | id :: _ => (id, db)
  | [] => insert_album db externalId title artist coverUrl
  end.

Definition ua_key (ua : UserAlbum) : N * N := (ua_user_id ua, ua_album_id ua).

Definition set_user_albums (db : Db) (rows : list UserAlbum) : Db :=
  {| users := users db; albums := albums db; user_albums := rows;
     track_ratings := track_ratings db;
     next_user_id := next_user_id db; next_album_id := next_album_id db |}.

(** INSERT IGNORE INTO user_albums (user_id, album_id): nothing happens
    when the pair is there. *)
Definition ensureUserAlbum (now : Time) (db : Db) (userId albumId : N) : Db :=
  if bool_decide ((userId, albumId) ∈ ua_key <$> user_albums db) then db
  else set_user_albums db
         (user_albums db ++
            [ {| ua_user_id := userId; ua_album_id := albumId;
                 ua_notes := JS.Null; ua_created_at := now |} ]).

(** UPDATE user_albums SET notes = ? WHERE user_id = ? AND album_id = ? *)
Definition update_notes (db : Db) (notes : JS.Val) (userId albumId : N) : Db :=
  set_user_albums db
    ((fun ua =>
        if bool_decide (ua_key ua = (userId, albumId))
        then {| ua_user_id := ua_user_id ua; ua_album_id := ua_album_id ua;
                ua_notes := notes; ua_created_at := ua_created_at ua |}
        else ua) <$> user_albums db).

Definition tr_key_is (userId albumId : N) (trackId : JsString)
    (r : TrackRating) : bool :=
  (tr_user_id r =? userId)%N && (tr_album_id r =? albumId)%N
  && sql_text_eq (tr_track_id r) trackId.

(** INSERT INTO track_ratings ... ON DUPLICATE KEY UPDATE rating =
    VALUES(rating), updated_at = CURRENT_TIMESTAMP: the row that holds the
    key is rewritten, and a new row is added when there is none. *)
Fixpoint upsert_rating_row (now : Time) (userId albumId : N)
    (trackId trackName : JsString) (rating : Z)
    (rows : list TrackRating) : list TrackRating :=
  match rows with
  | [] => [ {| tr_user_id := userId; tr_album_id := albumId;
               tr_track_id := trackId; tr_track_name := trackName;
               tr_rating := rating; tr_updated_at := now |} ]
  | r :: rows' =>
      if tr_key_is userId albumId trackId r
      then {| tr_user_id := tr_user_id r; tr_album_id := tr_album_id r;
              tr_track_id := tr_track_id r; tr_track_name := tr_track_name r;
              tr_rating := rating; tr_updated_at := now |} :: rows'
      else r :: upsert_rating_row now userId albumId trackId trackName rating rows'
  end.

Definition set_track_ratings (db : Db) (rows : list TrackRating) : Db :=
  {| users := users db; albums := albums db; user_albums := user_albums db;
     track_ratings := rows;
     next_user_id := next_user_id db; next_album_id := next_album_id db |}.

(** ** Request bodies *)

Record Credentials := { cr_username : Field; cr_password : Field }.

(** The body of POST /api/login.  The password is kept as the JSON value
    it is: [bcrypt.compare] rejects a password that is not a string, and
    the [catch] of the handler answers. *)
Record LoginBody := { lg_username : Field; lg_password : JS.Val }.

Record AlbumBody := {
  ab_externalId : Field;
  ab_title : Field;
  ab_artist : Field;
  ab_coverUrl : Field }.

Record NotesBody := {
  nb_albumExternalId : Field;
  nb_albumTitle : Field;
  nb_albumArtist : Field;
  nb_coverUrl : Field;
  nb_notes : JS.Val }.

Record RatingBody := {
  rb_albumExternalId : Field;
  rb_albumTitle : Field;
  rb_albumArtist : Field;
  rb_coverUrl : Field;
  rb_trackId : Field;
  rb_trackName : Field;
  rb_rating : JS.Val }.

(** ** Routes *)

(** A handler maps the store and the session to the new store, the new
    session and the response.  The body is a JSON object and store calls
    succeed, so the catch branches (status 500) do not appear. *)
Definition Outcome : Type := Db * Session * Response.

Definition out_db (o : Outcome) : Db := o.1.1.
Definition out_session (o : Outcome) : Session := o.1.2.
Definition out_response (o : Outcome) : Response := o.2.

Section Auth.
Context `{Bcrypt}.

(** INSERT INTO users (username, password_hash) *)
Definition insert_user (now : Time) (db : Db)
    (username passwordHash : JsString) : N * Db :=
  (next_user_id db,
   {| users := users db ++
        [ {| u_id := next_user_id db; u_username := username;
             u_password_hash := passwordHash; u_created_at := now |} ];
      albums := albums db;
      user_albums := user_albums db;
      track_ratings := track_ratings db;
      next_user_id := N.succ (next_user_id db);
      next_album_id := next_album_id db |}).

(** POST /api/register *)
Definition post_register (salt : JsString) (now : Time)
    (db : Db) (sess : Session) (req : Credentials) : Outcome :=
  let username := cr_username req in
  let password := cr_password req in
  if negb (truthy_text username) || negb (truthy_text password)
  then (db, sess, MissingCredentials)
  else if negb (passwordMeetsRequirements (text password))
  then (db, sess, WeakPasswordError)
  else
    match findUserByUsername db (text username) with
    | Some _ => (db, sess, ConflictError)
    | None =>
        let passwordHash := bcrypt_hash (text password) 10 salt in
        let '(userId, db') := insert_user now db (text username) passwordHash in
        (db',
         {| s_userId := Some userId; s_username := Some (text username) |},
         json (BUser userId (text username)))
    end.

(** POST /api/login.  [bcrypt.compare] is reached only when the username
    is stored; called with a password that is not a string it rejects, the
    [await] throws and the [catch] answers with status 500. *)
Definition post_login (db : Db) (sess : Session) (req : LoginBody)
    : Outcome :=
  let username := lg_username req in
  let password := lg_password req in
  if negb (truthy_text username) || negb (JS.truthy password)
  then (db, sess, MissingCredentials)
  else
    match findUserByUsername db (text username) with
    | None => (db, sess, AuthError)
    | Some user =>
        match password with
        | JS.String_ p =>
            if negb (bcrypt_compare p (u_password_hash user))
            then (db, sess, AuthError)
            else
              (db,
               {| s_userId := Some (u_id user);
                  s_username := Some (u_username user) |},
               json (BUser (u_id user) (u_username user)))
        | _ => (db, sess, LoginServerError)
        end
    end.

End Auth.

(** POST /api/user/albums *)
Definition post_user_albums (now : Time) (db : Db) (sess : Session)
    (req : AlbumBody) : Outcome :=
  match requireLogin sess with
  | None => (db, sess, NotAuthenticated)
  | Some userId =>
      if negb (truthy_text (ab_externalId req)) || negb (truthy_text (ab_title req))
         || negb (truthy_text (ab_artist req))
      then (db, sess, fail 400 "Missing album data")
      else
        let '(albumId, db1) :=
          findOrCreateAlbum db (text (ab_externalId req)) (text (ab_title req))
            (text (ab_artist req)) (text_or_null (ab_coverUrl req)) in
        let db2 := ensureUserAlbum now db1 userId albumId in
        (db2, sess, json (BAlbumSaved albumId))
  end.

(** The rows of user_albums JOIN albums ON album_id = id for one user. *)
Definition joined_albums (db : Db) (userId : N) : list AlbumRow :=
  ua ← filter (fun ua => ua_user_id ua = userId) (user_albums db);
  a ← filter (fun a => a_id a = ua_album_id ua) (albums db);
  [ {| r_external_id := a_external_id a; r_title := a_title a;
       r_artist := a_artist a; r_cover_url := a_cover_url a;
       r_created_at := ua_created_at ua; r_notes := ua_notes ua |} ].

(** [r1] may come before [r2] under ORDER BY created_at DESC. *)
Definition newer_first (r1 r2 : AlbumRow) : Prop :=
  (r_created_at r2 <= r_created_at r1)%N.

#[global] Instance newer_first_dec r1 r2 : Decision (newer_first r1 r2).
Proof. unfold newer_first. apply _. Defined.

(** ORDER BY ua.created_at DESC.  Rows with the same created_at come in an
    order the store is free to choose; the model sorts by merging. *)
Definition order_by_created_at_desc (rows : list AlbumRow) : list AlbumRow :=
  merge_sort newer_first rows.

(** GET /api/user/albums *)
Definition get_user_albums (db : Db) (sess : Session) : Response :=
  match requireLogin sess with
  | None => NotAuthenticated
  | Some userId => json (BAlbums (order_by_created_at_desc (joined_albums db userId)))
  end.

(** POST /api/user/album-notes *)
Definition post_album_notes (now : Time) (db : Db) (sess : Session)
    (req : NotesBody) : Outcome :=
  match requireLogin sess with
  | None => (db, sess, NotAuthenticated)
  | Some userId =>
      if negb (truthy_text (nb_albumExternalId req))
      then (db, sess, fail 400 "Missing albumExternalId")
      else
        let '(albumId, db1) :=
          findOrCreateAlbum db (text (nb_albumExternalId req))
            (text_or (nb_albumTitle req) (js "Unknown album"))
            (text_or (nb_albumArtist req) (js "Unknown artist"))
            (text_or_null (nb_coverUrl req)) in
        let db2 := ensureUserAlbum now db1 userId albumId in
        let db3 := update_notes db2 (JS.or (nb_notes req) JS.Null) userId albumId in
        (db3, sess, json BSuccess)
  end.

(** The integer a Number that passed [Number.isInteger] denotes. *)
Definition integer_of (n : JS.Num) : Z :=
  match n with
  | JS.Finite q => Qfloor q
  | _ => 0%Z
  end.

(** POST /api/user/ratings *)
Definition post_ratings (now : Time) (db : Db) (sess : Session)
    (req : RatingBody) : Outcome :=
  match requireLogin sess with
  | None => (db, sess, NotAuthenticated)
  | Some userId =>
      if negb (truthy_text (rb_albumExternalId req)) || negb (truthy_text (rb_trackId req))
         || negb (truthy_text (rb_trackName req)) || JS.eq_null (rb_rating req)
      then (db, sess, fail 400 "Missing rating data")
      else
        let numericRating := JS.Number (rb_rating req) in
        if negb (JS.isInteger numericRating) || JS.lt numericRating (JS.of_Z 1)
           || JS.lt (JS.of_Z 5) numericRating
        then (db, sess, RatingError)
        else
          let '(albumId, db1) :=
            findOrCreateAlbum db (text (rb_albumExternalId req))
              (text_or (rb_albumTitle req) (js "Unknown album"))
              (text_or (rb_albumArtist req) (js "Unknown artist"))
              (text_or_null (rb_coverUrl req)) in
          let db2 := ensureUserAlbum now db1 userId albumId in
          let db3 :=
            set_track_ratings db2
              (upsert_rating_row now userId albumId (text (rb_trackId req))
                 (text (rb_trackName req)) (integer_of numericRating)
                 (track_ratings db2)) in
          (db3, sess, json BSuccess)
  end.

(** SELECT track_id, track_name, rating FROM track_ratings WHERE user_id = ?
    AND album_id = ? *)
Definition select_ratings (db : Db) (userId albumId : N) : list TrackRating :=
  filter (fun r => tr_user_id r = userId ∧ tr_album_id r = albumId)
    (track_ratings db).

Definition rating_entry (row : TrackRating) : RatingEntry :=
  {| trackId := tr_track_id row; trackName := tr_track_name row;
     rating := tr_rating row |}.

(** One turn of the loop below: [map[row.track_id] = {...}]. *)
Definition ratings_step (map : gmap JsString RatingEntry) (row : TrackRating)
    : gmap JsString RatingEntry :=
  JS.assign map (tr_track_id row) (rating_entry row).

(** The loop [for (const row of rows) map[row.track_id] = {...}] on the
    map [{}]. *)
Definition ratings_map (rows : list TrackRating) : gmap JsString RatingEntry :=
  fold_left ratings_step rows ∅.

(** GET /api/user/ratings/:externalId *)
Definition get_ratings (db : Db) (sess : Session) (externalId : JsString)
    : Response :=
  match requireLogin sess with
  | None => NotAuthenticated
  | Some userId =>
      match select_album_ids db externalId with
      | [] => json (BRatings ∅)
      | albumId :: _ => json (BRatings (ratings_map (select_ratings db userId albumId)))
      end
  end.

(** ** The constraints of the store *)

Definition tr_key (r : TrackRating) : N * N * JsString :=
  (tr_user_id r, tr_album_id r, tr_track_id r).

(** The unique keys of the data model and the freshness of the two
    counters. *)
Record db_ok (db : Db) : Prop := {
  ok_user_ids : NoDup (u_id <$> users db);
  ok_usernames : NoDup (u_username <$> users db);
  ok_user_fresh : Forall (fun u => (u_id u < next_user_id db)%N) (users db);
  ok_album_ids : NoDup (a_id <$> albums db);
  ok_external_ids : NoDup (a_external_id <$> albums db);
  ok_album_fresh : Forall (fun a => (a_id a < next_album_id db)%N) (albums db);
  ok_user_albums : NoDup (ua_key <$> user_albums db);
  ok_track_ratings : NoDup (tr_key <$> track_ratings db) }.

(** ** Paths through the handlers *)

(** The same rating request with another value in its rating field. *)
Definition with_rating (req : RatingBody) (v : JS.Val) : RatingBody :=
  {| rb_albumExternalId := rb_albumExternalId req;
     rb_albumTitle := rb_albumTitle req;
     rb_albumArtist := rb_albumArtist req;
     rb_coverUrl := rb_coverUrl req;
     rb_trackId := rb_trackId req;
     rb_trackName := rb_trackName req;
     rb_rating := v |}.

(** The album, the track id and the track name are there. *)
Definition rating_fields_present (req : RatingBody) : bool :=
  truthy_text (rb_albumExternalId req) && truthy_text (rb_trackId req)
  && truthy_text (rb_trackName req).

Definition album_fields_present (req : AlbumBody) : bool :=
  truthy_text (ab_externalId req) && truthy_text (ab_title req)
  && truthy_text (ab_artist req).

(** The store after the three statements of the accepting path of
    POST /api/user/ratings, for the integer [r] bound as the rating. *)
Definition rated (now : Time) (db : Db) (userId : N) (req : RatingBody)
    (r : Z) : Db :=
  let found :=
    findOrCreateAlbum db (text (rb_albumExternalId req))
      (text_or (rb_albumTitle req) (js "Unknown album"))
      (text_or (rb_albumArtist req) (js "Unknown artist"))
      (text_or_null (rb_coverUrl req)) in
  let db2 := ensureUserAlbum now found.2 userId found.1 in
  set_track_ratings db2
    (upsert_rating_row now userId found.1 (text (rb_trackId req))
       (text (rb_trackName req)) r (track_ratings db2)).

(** The check on [numericRating] of POST /api/user/ratings. *)
Definition rating_out_of_range (n : JS.Num) : bool :=
  negb (JS.isInteger n) || JS.lt n (JS.of_Z 1) || JS.lt (JS.of_Z 5) n.

(** The store after the two statements of POST /api/user/albums. *)
Definition journaled (now : Time) (db : Db) (userId : N) (req : AlbumBody) : Db :=
  let found :=
    findOrCreateAlbum db (text (ab_externalId req)) (text (ab_title req))
      (text (ab_artist req)) (text_or_null (ab_coverUrl req)) in
  ensureUserAlbum now found.2 userId found.1.

(** The row of the listing for a journal entry and its album. *)
Definition album_row (ua : UserAlbum) (a : Album) : AlbumRow :=
  {| r_external_id := a_external_id a; r_title := a_title a;
     r_artist := a_artist a; r_cover_url := a_cover_url a;
     r_created_at := ua_created_at ua; r_notes := ua_notes ua |}.

(** ** Fixtures for the examples *)

(** A stand-in for bcrypt, for the concrete examples only: the "hash" is
    the salt followed by the password, and salts have two code units. *)
Definition example_bcrypt : Bcrypt :=
  {| bcrypt_hash p _ salt := salt ++ p;
     bcrypt_compare p h := bool_decide (drop 2 h = p) |}.

Definition credentials (u p : JsString) : Credentials :=
  {| cr_username := Some u; cr_password := Some p |}.

(** A login request with a username and any JSON value as password, and
    the one with a string password. *)
Definition login_with (u : JsString) (v : JS.Val) : LoginBody :=
  {| lg_username := Some u; lg_password := v |}.

Definition login_body (u p : JsString) : LoginBody :=
  login_with u (JS.String_ p).

(** The store after "bob" registered with the password "Abcdef1!", and
    the session that registration opened. *)
Definition bob_registered : Outcome :=
  @post_register example_bcrypt (js "s1") 5%N empty_db no_session
    (credentials (js "bob") (js "Abcdef1!")).

Definition db_with_bob : Db := out_db bob_registered.
Definition bob_session : Session := out_session bob_registered.

(** The row of bob in [db_with_bob]. *)
Definition bob : User :=
  {| u_id := 1; u_username := js "bob"; u_password_hash := js "s1Abcdef1!";
     u_created_at := 5%N |}.

Definition album_request (e title : JsString) : AlbumBody :=
  {| ab_externalId := Some e; ab_title := Some title;
     ab_artist := Some (js "Artist"); ab_coverUrl := None |}.

Definition rating_request (e track : JsString) (v : JS.Val) : RatingBody :=
  {| rb_albumExternalId := Some e; rb_albumTitle := Some (js "Album");
     rb_albumArtist := Some (js "Artist"); rb_coverUrl := None;
     rb_trackId := Some track; rb_trackName := Some (js "Intro");
     rb_rating := v |}.

Definition notes_request (e : JsString) (notes : JS.Val) : NotesBody :=
  {| nb_albumExternalId := Some e; nb_albumTitle := None;
     nb_albumArtist := None; nb_coverUrl := None; nb_notes := notes |}.

(** A rating request of bob for the track whose id is "__proto__". *)
Definition proto_rating : RatingBody :=
  rating_request (js "A") (js "__proto__") (JS.Number_ (JS.of_Z 4)).

(** bob saves the notes "hello" on album "A". *)
Definition bob_noted : Outcome :=
  post_album_notes 6%N db_with_bob bob_session
    (notes_request (js "A") (JS.String_ (js "hello"))).

(** ** Runs of the server *)

(** The requests that write to the store. *)
Inductive Request :=
| Register (salt : JsString) (now : Time) (c : Credentials)
| Login (c : LoginBody)
| SaveAlbum (now : Time) (b : AlbumBody)
| SaveNotes (now : Time) (b : NotesBody)
| SaveRating (now : Time) (b : RatingBody).

Section Runs.
Context {B : Bcrypt}.

Definition handle (r : Request) (db : Db) (sess : Session) : Outcome :=
  match r with
  | Register salt now c => post_register salt now db sess c
  | Login c => post_login db sess c
  | SaveAlbum now b => post_user_albums now db sess b
  | SaveNotes now b => post_album_notes now db sess b
  | SaveRating now b => post_ratings now db sess b
  end.

(** The stores the server can be in: the empty one, and what a request
    makes of such a store under any session. *)
Inductive reachable : Db -> Prop :=
| reachable_empty : reachable empty_db
| reachable_step db sess r :
    reachable db -> reachable (out_db (handle r db sess)).

End Runs.

(** ** GET /api/me *)

(** The columns GET /api/me selects. *)
Record Me := {
  me_id : N;
  me_username : JsString;
  me_created_at : Time }.

(** SELECT id, username, created_at FROM users WHERE id = ?, then
    [rows[0]]. *)
Definition select_user_by_id (db : Db) (id : N) : option Me :=
  head ((fun u => {| me_id := u_id u; me_username := u_username u;
                     me_created_at := u_created_at u |})
          <$> filter (fun u => u_id u = id) (users db)).

(** GET /api/me: the [user] member of the body, [None] for [null]; the
    status is 200 on both paths. *)
Definition get_me (db : Db) (sess : Session) : option Me :=
  match s_userId sess with
  | Some uid => if (uid =? 0)%N then None else select_user_by_id db uid
  | None => None
  end.

(** The ids that AUTO_INCREMENT hands out start at 1. *)
Definition ids_started (db : Db) : Prop :=
  (0 < next_user_id db)%N /\ Forall (fun u => (0 < u_id u)%N) (users db).

Definition album_ids_started (db : Db) : Prop :=
  (0 < next_album_id db)%N /\ Forall (fun a => (0 < a_id a)%N) (albums db).

Section Evolution.
Context {B : Bcrypt}.

(** [evolves db db']: the server gets from the store [db] to the store
    [db'] by serving writing requests, each under any session. *)
Inductive evolves (db : Db) : Db -> Prop :=
| evolves_refl : evolves db db
| evolves_step db' sess r :
    evolves db db' -> evolves db (out_db (handle r db' sess)).

End Evolution.

(** The store after the three statements of POST /api/user/album-notes. *)
Definition noted (now : Time) (db : Db) (userId : N) (req : NotesBody) : Db :=
  let found :=
    findOrCreateAlbum db (text (nb_albumExternalId req))
      (text_or (nb_albumTitle req) (js "Unknown album"))
      (text_or (nb_albumArtist req) (js "Unknown artist"))
      (text_or_null (nb_coverUrl req)) in
  update_notes (ensureUserAlbum now found.2 userId found.1)
    (JS.or (nb_notes req) JS.Null) userId found.1.

(** bob rates track "t1" of album "A" with 3, under the name "Intro". *)
Definition bob_rated : Outcome :=
  post_ratings 8%N db_with_bob bob_session
    (rating_request (js "A") (js "t1") (JS.Number_ (JS.of_Z 3))).

(** The same key rated again under another track name. *)
Definition renamed_rating : RatingBody :=
  {| rb_albumExternalId := Some (js "A"); rb_albumTitle := None;
     rb_albumArtist := None; rb_coverUrl := None;
     rb_trackId := Some (js "t1"); rb_trackName := Some (js "Outro");
     rb_rating := JS.Number_ (JS.of_Z 5) |}.


(** A password that passes the check, for the examples. *)
Definition strong_password : JsString := js "Str0ng!pw".

(** * Properties *)

(** ** The regular expression of passwordMeetsRequirements *)

Lemma existsb_pointwise {A} (f g : A -> bool) (l : list A) :
  (forall x, f x = g x) -> existsb f l = existsb g l.
Proof. intros E. induction l as [|x l IH]; simpl; [done|]. now rewrite E, IH. Qed.

Section RegexFacts.
Import Regex.

Lemma star_true a s : forall i k,
  star a i s k = true <->
  exists n, n <= length s /\ forallb (atom_ok a) (take n s) = true
            /\ k (i + n) (drop n s) = true.
Proof.
  induction s as [|c s IH]; intros i k; simpl.
  - split.
    + intros Hk. exists 0. rewrite Nat.add_0_r. auto.
    + intros (n & Hn & _ & Hk). destruct n; [|simpl in Hn; lia].
      now rewrite Nat.add_0_r in Hk.
  - rewrite orb_true_iff, andb_true_iff, IH. split.
    + intros [[Hc (n & Hn & Hall & Hk)] | Hk].
      * exists (S n). simpl. rewrite Hc, Hall, Nat.add_succ_r.
        split_and!; (lia || done).
      * exists 0. rewrite Nat.add_0_r. simpl. split_and!; (lia || done).
    + intros ([|n] & Hn & Hall & Hk); simpl in *.
      * right. now rewrite Nat.add_0_r in Hk.
      * apply andb_true_iff in Hall as [Hc Hall]. left. split; [done|].
        exists n. rewrite Nat.add_succ_r in Hk.
        split_and!; (lia || done).
Qed.

Lemma times_true a n : forall s i k,
  times n a i s k = true <->
  n <= length s /\ forallb (atom_ok a) (take n s) = true
  /\ k (i + n) (drop n s) = true.
Proof.
  induction n as [|n IH]; intros s i k; simpl.
  - rewrite Nat.add_0_r. intuition lia.
  - destruct s as [|c s]; simpl.
    + intuition (discriminate || lia).
    + rewrite andb_true_iff, IH, andb_true_iff, Nat.add_succ_r.
      simpl. intuition lia.
Qed.

(** A lookahead [(?=.*a)] asks for an [a] that no line terminator
    precedes. *)
Lemma ahead_true a i s k :
  run (ahead a) i s k = true <->
  (exists n c, forallb (atom_ok Dot) (take n s) = true
               /\ s !! n = Some c /\ atom_ok a c = true)
  /\ k i s = true.
Proof.
  simpl. rewrite andb_true_iff, star_true.
  apply and_iff_compat_r. split.
  - intros (n & _ & Hall & Hk).
    destruct (drop n s) as [|c r] eqn:Hd; [discriminate|].
    exists n, c. rewrite andb_true_r in Hk. split_and!; try done.
    pose proof (lookup_drop s n 0) as E. rewrite Nat.add_0_r, Hd in E. done.
  - intros (n & c & Hall & Hc & Ha). exists n.
    split; [apply Nat.lt_le_incl; eapply lookup_lt_Some; eassumption|].
    split; [done|].
    pose proof (lookup_drop s n 0) as E. rewrite Nat.add_0_r, Hc in E.
    destruct (drop n s); [discriminate|]. simpl in E.
    injection E as ->. now rewrite Ha.
Qed.

Lemma run_bol r s k : run (Seq Bol r) 0 s k = run r 0 s k.
Proof. reflexivity. Qed.

Lemma run_ahead_seq a r i s k :
  run (Seq (ahead a) r) i s k = true <->
  (exists n c, forallb (atom_ok Dot) (take n s) = true
               /\ s !! n = Some c /\ atom_ok a c = true)
  /\ run r i s k = true.
Proof.
  change (run (Seq (ahead a) r) i s k)
    with (run (ahead a) i s (fun i' s' => run r i' s' k)).
  now rewrite ahead_true.
Qed.

(** [.{8,}$]: at least eight code units up to the end of the input, none
    of them a line terminator. *)
Lemma tail_true i s :
  run (Seq (AtLeast 8 Dot) Eol) i s (fun _ _ => true) = true <->
  8 <= length s /\ forallb (atom_ok Dot) s = true.
Proof.
  cbn [run]. rewrite times_true. split.
  - intros (Hlen & H8 & Hstar). split; [done|].
    apply star_true in Hstar as (n & Hn & Hall & Hend).
    destruct (drop n (drop 8 s)) eqn:Hd; [|discriminate].
    assert (n = length (drop 8 s)) as ->.
    { apply (f_equal length) in Hd. rewrite !length_drop in *. simpl in Hd. lia. }
    rewrite firstn_all in Hall.
    rewrite <- (take_drop 8 s), forallb_app, H8, Hall. done.
  - intros [Hlen Hall]. split; [done|].
    rewrite <- (take_drop 8 s), forallb_app in Hall.
    apply andb_true_iff in Hall as [H8 Hrest]. split; [done|].
    apply star_true. exists (length (drop 8 s)).
    rewrite firstn_all, drop_all. done.
Qed.

Lemma ahead_exists a s :
  forallb (atom_ok Dot) s = true ->
  (exists n c, forallb (atom_ok Dot) (take n s) = true
               /\ s !! n = Some c /\ atom_ok a c = true)
  <-> existsb (atom_ok a) s = true.
Proof.
  intros Hall. rewrite existsb_exists. split.
  - intros (n & c & _ & Hc & Ha). exists c. split; [|done].
    apply list_elem_of_In. eapply list_elem_of_lookup_2; eassumption.
  - intros (c & Hin & Ha).
    apply list_elem_of_In, list_elem_of_lookup in Hin as [n Hn].
    exists n, c. repeat split; try done.
    rewrite <- (take_drop n s), forallb_app in Hall.
    now apply andb_true_iff in Hall as [? _].
Qed.

Lemma lower_class_ok c : atom_ok lower_class c = is_lower c.
Proof. unfold lower_class, is_lower. simpl. now rewrite orb_false_r. Qed.

Lemma upper_class_ok c : atom_ok upper_class c = is_upper c.
Proof. unfold upper_class, is_upper. simpl. now rewrite orb_false_r. Qed.

Lemma digit_class_ok c : atom_ok digit_class c = is_digit c.
Proof. unfold digit_class, is_digit. simpl. now rewrite orb_false_r. Qed.

Lemma special_class_ok c : atom_ok special_class c = is_special c.
Proof.
  unfold special_class, is_special, is_upper, is_lower, is_digit. simpl.
  rewrite orb_false_r, orb_assoc. done.
Qed.

(** The anchor [^] leaves only index 0. *)
Lemma password_regex_anchored s : forall i,
  0 < i -> search password_regex i s = false.
Proof.
  induction s as [|c s IH]; intros i Hi; simpl.
  - destruct i; [lia | done].
  - rewrite IH by lia. destruct i; [lia | done].
Qed.

Lemma password_regex_at_start s :
  match_at password_regex 0 s = true <->
  no_line_terminator s = true /\ spec_password_ok s = true.
Proof.
  unfold match_at, password_regex, spec_password_ok, no_line_terminator.
  rewrite run_bol, !run_ahead_seq, tail_true, !andb_true_iff, Nat.leb_le.
  change (fun c => negb (is_line_terminator c)) with (atom_ok Dot).
  rewrite <- (existsb_pointwise _ _ s lower_class_ok),
    <- (existsb_pointwise _ _ s upper_class_ok),
    <- (existsb_pointwise _ _ s digit_class_ok),
    <- (existsb_pointwise _ _ s special_class_ok).
  split.
  - intros (Hl & Hu & Hd & Hs & Hlen & Hall).
    apply (ahead_exists _ _ Hall) in Hl, Hu, Hd, Hs. done.
  - intros (Hall & (((Hlen & Hl) & Hu) & Hd) & Hs).
    apply (ahead_exists _ _ Hall) in Hl, Hu, Hd, Hs. done.
Qed.

End RegexFacts.

(** What the regular expression accepts: the five requirements of the
    comment in index.js, and no line terminator anywhere in the password. *)
Lemma passwordMeetsRequirements_spec p :
  passwordMeetsRequirements p = no_line_terminator p && spec_password_ok p.
Proof.
  apply eq_true_iff_eq. rewrite andb_true_iff, <- password_regex_at_start.
  unfold passwordMeetsRequirements, Regex.test.
  destruct p as [|c p]; cbn [Regex.search].
  - now rewrite orb_false_r.
  - rewrite password_regex_anchored by lia. now rewrite orb_false_r.
Qed.

(** ** Registration and login *)

Lemma passwordMeetsRequirements_nonempty p :
  passwordMeetsRequirements p = true -> p <> [].
Proof. intros Hp ->. discriminate Hp. Qed.

Lemma truthy_text_Some (s : JsString) : truthy_text (Some s) = true <-> s <> [].
Proof. destruct s; simpl; split; congruence. Qed.

Lemma truthy_string (s : JsString) : JS.truthy (JS.String_ s) = true <-> s <> [].
Proof. destruct s; simpl; split; congruence. Qed.

Lemma findUserByUsername_Some db u usr :
  findUserByUsername db u = Some usr -> usr ∈ users db /\ u_username usr = u.
Proof.
  unfold findUserByUsername. intros Hhd.
  assert (usr ∈ filter (fun x => sql_text_eq (u_username x) u = true) (users db)) as Hin.
  { destruct (filter _ (users db)) as [|x l]; [discriminate|].
    injection Hhd as ->. left. }
  apply list_elem_of_filter in Hin as [Heq Hin]. split; [done|].
  unfold sql_text_eq in Heq. now apply bool_decide_eq_true in Heq.
Qed.

Lemma findUserByUsername_None db u :
  findUserByUsername db u = None <->
  ~ exists usr, usr ∈ users db /\ u_username usr = u.
Proof.
  unfold findUserByUsername. split.
  - intros Hhd (usr & Hin & Hu).
    assert (usr ∈ filter (fun x => sql_text_eq (u_username x) u = true) (users db)) as Hf.
    { apply list_elem_of_filter. split; [|done].
      unfold sql_text_eq. now apply bool_decide_eq_true. }
    destruct (filter _ (users db)); [inversion Hf | discriminate].
  - intros Hno.
    destruct (filter _ (users db)) as [|x l] eqn:Hf; [done|]. exfalso. apply Hno.
    assert (x ∈ filter (fun x => sql_text_eq (u_username x) u = true) (users db)) as Hin
      by (rewrite Hf; left).
    apply list_elem_of_filter in Hin as [Heq Hin]. exists x. split; [done|].
    unfold sql_text_eq in Heq. now apply bool_decide_eq_true in Heq.
Qed.

Section AuthFacts.
Context {B : Bcrypt}.

(** The guard on missing fields comes before every other check. *)
Lemma post_register_missing salt now db sess req :
  truthy_text (cr_username req) = false \/ truthy_text (cr_password req) = false ->
  post_register salt now db sess req = (db, sess, MissingCredentials).
Proof.
  intros Hmiss. unfold post_register.
  destruct Hmiss as [-> | ->]; simpl; [done|].
  now rewrite orb_true_r.
Qed.

Lemma post_login_missing db sess req :
  truthy_text (lg_username req) = false \/ JS.truthy (lg_password req) = false ->
  post_login db sess req = (db, sess, MissingCredentials).
Proof.
  intros Hmiss. unfold post_login.
  destruct Hmiss as [-> | ->]; simpl; [done|].
  now rewrite orb_true_r.
Qed.

(** With both fields there, the weak-password failure is exactly the
    failure of the regular expression. *)
Lemma post_register_weak salt now db sess (u p : JsString) :
  u <> [] -> p <> [] ->
  out_response (post_register salt now db sess (credentials u p)) = WeakPasswordError
  <-> passwordMeetsRequirements p = false.
Proof.
  intros Hu Hp. unfold post_register, credentials; cbn [cr_username cr_password].
  apply truthy_text_Some in Hu, Hp. rewrite Hu, Hp. cbn [negb orb text].
  destruct (passwordMeetsRequirements p); cbn [negb].
  - split; [|done].
    destruct (findUserByUsername db u); intros E; cbv in E; discriminate E.
  - done.
Qed.

(** C1, amended: for a non-empty username and a non-empty password that
    holds no line terminator, registration fails with the weak-password
    error exactly when the password misses one of: length at least 8, a
    lowercase letter, an uppercase letter, a digit, a character outside
    [A-Za-z0-9]; "abcdefg1" is rejected and "Abcdef1!" is not. *)
Theorem register_weak_password salt now db sess (u : JsString) :
  u <> [] ->
  (forall p : JsString, p <> [] -> no_line_terminator p = true ->
     (out_response (post_register salt now db sess (credentials u p)) = WeakPasswordError
      <-> spec_password_ok p = false))
  /\ out_response (post_register salt now db sess (credentials u (js "abcdefg1")))
     = WeakPasswordError
  /\ out_response (post_register salt now db sess (credentials u (js "Abcdef1!")))
     <> WeakPasswordError.
Proof.
  intros Hu. split_and!.
  - intros p Hp Hnl. rewrite post_register_weak by done.
    now rewrite passwordMeetsRequirements_spec, Hnl.
  - now apply post_register_weak.
  - intros Hweak. now apply post_register_weak in Hweak.
Qed.

(** An accepted password on a free username registers the user: the
    response carries the generated id and the session is opened. *)
Lemma post_register_success salt now db sess (u p : JsString) :
  u <> [] -> passwordMeetsRequirements p = true ->
  findUserByUsername db u = None ->
  out_response (post_register salt now db sess (credentials u p))
    = json (BUser (next_user_id db) u)
  /\ out_session (post_register salt now db sess (credentials u p))
    = {| s_userId := Some (next_user_id db); s_username := Some u |}
  /\ users (out_db (post_register salt now db sess (credentials u p)))
    = users db ++ [ {| u_id := next_user_id db; u_username := u;
                       u_password_hash := bcrypt_hash p 10 salt;
                       u_created_at := now |} ].
Proof.
  intros Hu Hp Hfree. pose proof (passwordMeetsRequirements_nonempty _ Hp) as Hp'.
  unfold post_register, credentials; cbn [cr_username cr_password].
  apply truthy_text_Some in Hu, Hp'. rewrite Hu, Hp'. cbn [negb orb text].
  now rewrite Hp, Hfree.
Qed.

(** C6, amended: with a non-empty username and a password that passes
    the strength check, registration fails with the conflict error
    exactly when a stored user has that very username (compared code unit by code unit, so
    a name that differs in letter case is free), and the failure leaves
    the store and the session as they were. *)
Theorem register_conflict salt now db sess (u p : JsString) :
  u <> [] -> passwordMeetsRequirements p = true ->
  (out_response (post_register salt now db sess (credentials u p)) = ConflictError
   <-> exists usr, usr ∈ users db /\ u_username usr = u)
  /\ ((exists usr, usr ∈ users db /\ u_username usr = u) ->
      post_register salt now db sess (credentials u p) = (db, sess, ConflictError)).
Proof.
  intros Hu Hp. pose proof (passwordMeetsRequirements_nonempty _ Hp) as Hp'.
  assert (post_register salt now db sess (credentials u p) =
          match findUserByUsername db u with
          | Some _ => (db, sess, ConflictError)
          | None =>
              (snd (insert_user now db u (bcrypt_hash p 10 salt)),
               {| s_userId := Some (next_user_id db); s_username := Some u |},
               json (BUser (next_user_id db) u))
          end) as ->.
  { unfold post_register, credentials; cbn [cr_username cr_password].
    apply truthy_text_Some in Hu, Hp'. rewrite Hu, Hp'. cbn [negb orb text].
    rewrite Hp. cbn [negb]. now destruct (findUserByUsername db u). }
  destruct (findUserByUsername db u) as [usr|] eqn:Hfind.
  - apply findUserByUsername_Some in Hfind. split; [|done].
    split; [|done]. intros _. now exists usr.
  - apply findUserByUsername_None in Hfind. split; [|done].
    split; [intros E; cbv in E; discriminate E | done].
Qed.

(** With string passwords the two failures of a login are one: a username
    that is not stored and a stored username with a password the hash does
    not match get the same response, the generic invalid-credentials
    failure with status 400, and neither touches the store or the
    session. *)
Lemma login_no_enumeration db1 db2 sess1 sess2 (u1 p1 u2 p2 : JsString) usr :
  u1 <> [] -> p1 <> [] -> u2 <> [] -> p2 <> [] ->
  findUserByUsername db1 u1 = None ->
  findUserByUsername db2 u2 = Some usr ->
  bcrypt_compare p2 (u_password_hash usr) = false ->
  post_login db1 sess1 (login_body u1 p1) = (db1, sess1, AuthError)
  /\ post_login db2 sess2 (login_body u2 p2) = (db2, sess2, AuthError)
  /\ out_response (post_login db1 sess1 (login_body u1 p1))
     = out_response (post_login db2 sess2 (login_body u2 p2)).
Proof.
  intros Hu1 Hp1 Hu2 Hp2 Hnone Hsome Hcmp.
  apply truthy_text_Some in Hu1, Hu2. apply truthy_string in Hp1, Hp2.
  assert (post_login db1 sess1 (login_body u1 p1) = (db1, sess1, AuthError)) as E1.
  { unfold post_login, login_body, login_with; cbn [lg_username lg_password].
    rewrite Hu1, Hp1. cbn [negb orb text]. now rewrite Hnone. }
  assert (post_login db2 sess2 (login_body u2 p2) = (db2, sess2, AuthError)) as E2.
  { unfold post_login, login_body, login_with; cbn [lg_username lg_password].
    rewrite Hu2, Hp2. cbn [negb orb text]. now rewrite Hsome, Hcmp. }
  now rewrite E1, E2.
Qed.

(** When a credential field is empty or absent, both situations get the
    same missing-credentials failure. *)
Lemma login_missing_uniform db1 db2 sess req :
  truthy_text (lg_username req) = false \/ JS.truthy (lg_password req) = false ->
  out_response (post_login db1 sess req) = out_response (post_login db2 sess req).
Proof. intros Hm. now rewrite !post_login_missing. Qed.

(** A truthy password that is not a string: an unknown username is
    answered before [bcrypt.compare] is called, a stored one is answered
    by the [catch]. *)
Lemma post_login_non_string db sess (u : JsString) (v : JS.Val) :
  u <> [] -> JS.truthy v = true -> (forall p, v <> JS.String_ p) ->
  post_login db sess (login_with u v) =
  (db, sess,
   match findUserByUsername db u with
   | Some _ => LoginServerError
   | None => AuthError
   end).
Proof.
  intros Hu Hv Hnot. apply truthy_text_Some in Hu.
  unfold post_login, login_with; cbn [lg_username lg_password].
  rewrite Hu, Hv. cbn [negb orb text].
  destruct (findUserByUsername db u); [|done].
  destruct v as [| | b | n | s]; try done. now destruct (Hnot s).
Qed.

End AuthFacts.

(** C2, the defect: bob is registered and "ghost" is not.  A login of each
    with the JSON number 1 as password passes the guard on missing fields;
    "ghost" gets the generic invalid-credentials failure with status 400,
    "bob" gets status 500 from the [catch], so the two responses tell a
    stored username from an unknown one. *)
Theorem login_tells_stored_username_apart :
  findUserByUsername db_with_bob (js "ghost") = None
  /\ findUserByUsername db_with_bob (js "bob") = Some bob
  /\ out_response
       (@post_login example_bcrypt db_with_bob no_session
          (login_with (js "ghost") (JS.Number_ (JS.of_Z 1))))
     = AuthError
  /\ out_response
       (@post_login example_bcrypt db_with_bob no_session
          (login_with (js "bob") (JS.Number_ (JS.of_Z 1))))
     = LoginServerError
  /\ AuthError <> LoginServerError.
Proof.
  split_and!; [reflexivity | reflexivity | | | discriminate].
  - now rewrite (@post_login_non_string example_bcrypt).
  - now rewrite (@post_login_non_string example_bcrypt).
Qed.

(** ** Albums: findOrCreateAlbum *)

Lemma select_album_ids_nil db e :
  select_album_ids db e = [] <-> albums_with db e = [].
Proof. unfold select_album_ids. split; [apply fmap_nil_inv | now intros ->]. Qed.

Lemma albums_with_insert db e t a c :
  albums_with db e = [] ->
  albums_with (insert_album db e t a c).2 e =
  [ {| a_id := next_album_id db; a_external_id := e; a_title := t;
       a_artist := a; a_cover_url := c |} ].
Proof.
  intros Hnone. unfold albums_with in *. cbn [insert_album snd albums].
  rewrite filter_app, Hnone, filter_cons_True; [done|].
  unfold sql_text_eq. now apply bool_decide_eq_true.
Qed.

(** A store with the same albums table answers the lookup the same way. *)
Lemma findOrCreateAlbum_found db e t a c id rest :
  select_album_ids db e = id :: rest ->
  findOrCreateAlbum db e t a c = (id, db).
Proof. unfold findOrCreateAlbum. now intros ->. Qed.

Lemma findOrCreateAlbum_select db e t a c :
  exists rest,
    select_album_ids (findOrCreateAlbum db e t a c).2 e
    = (findOrCreateAlbum db e t a c).1 :: rest.
Proof.
  unfold findOrCreateAlbum.
  destruct (select_album_ids db e) as [|id rest] eqn:Hsel.
  - exists []. apply select_album_ids_nil in Hsel.
    unfold select_album_ids. now rewrite albums_with_insert.
  - exists rest. done.
Qed.

Lemma findOrCreateAlbum_again db e t a c db' t' a' c' :
  albums db' = albums (findOrCreateAlbum db e t a c).2 ->
  findOrCreateAlbum db' e t' a' c' = ((findOrCreateAlbum db e t a c).1, db').
Proof.
  intros Halb. destruct (findOrCreateAlbum_select db e t a c) as [rest Hsel].
  apply findOrCreateAlbum_found with (rest := rest).
  unfold select_album_ids, albums_with in *. now rewrite Halb.
Qed.

(** C3: two calls with the same external id give the same album id, the
    second call leaves the store untouched whatever title, artist and
    cover it carries, and when the first call created the album its title,
    artist and cover are the stored ones afterwards (an album already there
    is left as it was by both calls). *)
Theorem findOrCreateAlbum_first_write_wins db (e t1 a1 : JsString) (c1 : Field)
    (t2 a2 : JsString) (c2 : Field) :
  let r1 := findOrCreateAlbum db e t1 a1 c1 in
  let r2 := findOrCreateAlbum r1.2 e t2 a2 c2 in
  r2.1 = r1.1 /\ r2.2 = r1.2
  /\ (select_album_ids db e = [] ->
      albums_with r2.2 e =
      [ {| a_id := r1.1; a_external_id := e; a_title := t1; a_artist := a1;
           a_cover_url := c1 |} ])
  /\ (select_album_ids db e <> [] -> r2.2 = db).
Proof.
  intros r1 r2.
  assert (r2 = (r1.1, r1.2)) as Hr2
    by (subst r1 r2; now apply findOrCreateAlbum_again).
  rewrite Hr2. cbn [fst snd]. split_and!; [done | done | |].
  - intros Hnone. subst r1. unfold findOrCreateAlbum. rewrite Hnone.
    apply select_album_ids_nil in Hnone. now rewrite albums_with_insert.
  - intros Hsome. subst r1. unfold findOrCreateAlbum.
    now destruct (select_album_ids db e).
Qed.

(** The id that comes back names a stored album with that external id. *)
Lemma findOrCreateAlbum_stored db e t a c :
  exists alb, alb ∈ albums (findOrCreateAlbum db e t a c).2
              /\ a_id alb = (findOrCreateAlbum db e t a c).1
              /\ a_external_id alb = e.
Proof.
  destruct (findOrCreateAlbum_select db e t a c) as [rest Hsel].
  unfold select_album_ids in Hsel.
  destruct (albums_with _ e) as [|alb l] eqn:Hw; [discriminate|].
  injection Hsel as Hid _. exists alb.
  assert (alb ∈ albums_with (findOrCreateAlbum db e t a c).2 e) as Hin
    by (rewrite Hw; left).
  apply list_elem_of_filter in Hin as [Heq Hin].
  unfold sql_text_eq in Heq. apply bool_decide_eq_true in Heq. done.
Qed.

Lemma findOrCreateAlbum_tables db e t a c :
  let db' := (findOrCreateAlbum db e t a c).2 in
  users db' = users db /\ user_albums db' = user_albums db
  /\ track_ratings db' = track_ratings db /\ next_user_id db' = next_user_id db
  /\ exists new, albums db' = albums db ++ new.
Proof.
  unfold findOrCreateAlbum. destruct (select_album_ids db e); cbn.
  - split_and!; try done. eexists. reflexivity.
  - split_and!; try done. exists []. now rewrite app_nil_r.
Qed.

(** ** Unique keys *)

Lemma filter_none {A} (P : A -> Prop) `{!forall x, Decision (P x)} (l : list A) :
  (forall y, y ∈ l -> ~ P y) -> filter P l = [].
Proof.
  induction l as [|a l IH]; intros Hno; [done|].
  rewrite filter_cons_False by (apply Hno; left).
  apply IH. intros y Hy. apply Hno. now right.
Qed.

(** Under a unique key, the rows that share the key of a stored row are
    that row alone. *)
Lemma filter_unique {A B} `{EqDecision B} (f : A -> B) (l : list A) (x : A) :
  NoDup (f <$> l) -> x ∈ l -> filter (fun y => f y = f x) l = [x].
Proof.
  induction l as [|a l IH]; intros Hnd Hin; [inversion Hin|].
  rewrite fmap_cons in Hnd. apply NoDup_cons in Hnd as [Hfresh Hnd].
  apply elem_of_cons in Hin as [-> | Hin].
  - rewrite filter_cons_True by done. f_equal.
    apply filter_none. intros y Hy Heq. apply Hfresh. rewrite <- Heq.
    now apply list_elem_of_fmap_2.
  - rewrite filter_cons_False.
    + now apply IH.
    + intros Heq. apply Hfresh. rewrite Heq. now apply list_elem_of_fmap_2.
Qed.

Lemma filter_unique_at {A B} `{EqDecision B} (f : A -> B) (l : list A) (x : A) (k : B) :
  NoDup (f <$> l) -> x ∈ l -> f x = k -> filter (fun y => f y = k) l = [x].
Proof. intros Hnd Hin <-. now apply filter_unique. Qed.

Lemma db_ok_empty : db_ok empty_db.
Proof. constructor; cbn; constructor. Qed.

Lemma insert_album_ok db e t a c :
  db_ok db -> albums_with db e = [] -> db_ok (insert_album db e t a c).2.
Proof.
  intros [? ? ? ? ? Hfresh ? ?] Hnone.
  constructor; cbn [insert_album snd users albums user_albums
    track_ratings next_user_id next_album_id]; try done.
  - rewrite fmap_app. apply NoDup_app. split_and!; [done | | apply NoDup_singleton].
    intros id Hid Hnew. apply list_elem_of_singleton in Hnew. cbn in Hnew. subst id.
    apply list_elem_of_fmap in Hid as (alb & Heq & Hin).
    rewrite Forall_forall in Hfresh.
    specialize (Hfresh alb Hin). lia.
  - rewrite fmap_app. apply NoDup_app. split_and!; [done | | apply NoDup_singleton].
    intros x Hx Hnew. apply list_elem_of_singleton in Hnew. cbn in Hnew. subst x.
    apply list_elem_of_fmap in Hx as (alb & Heq & Hin).
    assert (sql_text_eq (a_external_id alb) e = true) as Hp
      by (unfold sql_text_eq; now apply bool_decide_eq_true).
    exact (filter_nil_not_elem_of _ _ alb Hnone Hp Hin).
  - apply Forall_app. split.
    + eapply Forall_impl; [eassumption|]. cbn. intros. lia.
    + constructor; [cbn; lia | constructor].
Qed.

Lemma findOrCreateAlbum_ok db e t a c :
  db_ok db -> db_ok (findOrCreateAlbum db e t a c).2.
Proof.
  intros Hok. unfold findOrCreateAlbum.
  destruct (select_album_ids db e) eqn:Hsel; [|done].
  apply insert_album_ok; [done|]. now apply select_album_ids_nil.
Qed.

Lemma ensureUserAlbum_ok now db uid aid :
  db_ok db -> db_ok (ensureUserAlbum now db uid aid).
Proof.
  intros Hok. unfold ensureUserAlbum. case_bool_decide as Hin; [done|].
  destruct Hok. constructor; cbn; try done.
  rewrite fmap_app. apply NoDup_app. split_and!; [done | | apply NoDup_singleton].
  intros k Hk Hnew. apply list_elem_of_singleton in Hnew. cbn in Hnew. now subst k.
Qed.

Lemma update_notes_keys db v uid aid :
  ua_key <$> user_albums (update_notes db v uid aid) = ua_key <$> user_albums db.
Proof.
  unfold update_notes. cbn. rewrite <- list_fmap_compose.
  apply list_fmap_ext. intros i ua _. cbn. now case_bool_decide.
Qed.

Lemma update_notes_ok db v uid aid :
  db_ok db -> db_ok (update_notes db v uid aid).
Proof.
  intros Hok. pose proof (update_notes_keys db v uid aid) as Hkeys.
  destruct Hok. constructor; try done. now rewrite Hkeys.
Qed.

Lemma tr_key_is_true uid aid tid r :
  tr_key_is uid aid tid r = true <-> tr_key r = (uid, aid, tid).
Proof.
  unfold tr_key_is, tr_key, sql_text_eq.
  rewrite !andb_true_iff, !N.eqb_eq, bool_decide_eq_true.
  split; [intros [[-> ->] ->]; done | intros [= -> -> ->]; done].
Qed.

Lemma tr_key_is_false uid aid tid r :
  tr_key_is uid aid tid r = false <-> tr_key r <> (uid, aid, tid).
Proof.
  rewrite <- tr_key_is_true. destruct (tr_key_is uid aid tid r); split; congruence.
Qed.

(** The upsert keeps every key, and adds the written key when it was not
    there. *)
Lemma upsert_rating_row_keys now uid aid tid tn r rows :
  tr_key <$> upsert_rating_row now uid aid tid tn r rows =
  if bool_decide ((uid, aid, tid) ∈ tr_key <$> rows) then tr_key <$> rows
  else (tr_key <$> rows) ++ [(uid, aid, tid)].
Proof.
  induction rows as [|x rows IH]; cbn [upsert_rating_row].
  - rewrite bool_decide_eq_false_2 by (cbn; apply not_elem_of_nil). done.
  - destruct (tr_key_is uid aid tid x) eqn:Hx.
    + apply tr_key_is_true in Hx.
      rewrite bool_decide_eq_true_2 by (rewrite fmap_cons, Hx; left).
      rewrite !fmap_cons. f_equal.
    + apply tr_key_is_false in Hx. rewrite fmap_cons, IH, fmap_cons.
      case_bool_decide as Hin.
      * rewrite bool_decide_eq_true_2 by now right. done.
      * rewrite bool_decide_eq_false_2; [done|].
        intros Hc. apply elem_of_cons in Hc as [Hc | Hc]; congruence.
Qed.

Lemma upsert_rating_row_NoDup now uid aid tid tn r rows :
  NoDup (tr_key <$> rows) ->
  NoDup (tr_key <$> upsert_rating_row now uid aid tid tn r rows).
Proof.
  intros Hnd. rewrite upsert_rating_row_keys. case_bool_decide as Hin; [done|].
  apply NoDup_app. split_and!; [done | | apply NoDup_singleton].
  intros k Hk Hnew. apply list_elem_of_singleton in Hnew. now subst k.
Qed.

(** After the upsert the key holds the written rating and the time of the
    write. *)
Lemma upsert_rating_row_stored now uid aid tid tn r rows :
  exists row, row ∈ upsert_rating_row now uid aid tid tn r rows
              /\ tr_key row = (uid, aid, tid) /\ tr_rating row = r
              /\ tr_updated_at row = now.
Proof.
  induction rows as [|x rows IH]; cbn [upsert_rating_row].
  - eexists. split; [left|]. done.
  - destruct (tr_key_is uid aid tid x) eqn:Hx.
    + apply tr_key_is_true in Hx. eexists. split; [left|]. done.
    + destruct IH as (row & Hin & Hrow). exists row. split; [now right | done].
Qed.

Lemma set_track_ratings_ok db rows :
  db_ok db -> NoDup (tr_key <$> rows) -> db_ok (set_track_ratings db rows).
Proof. intros [] Hnd. constructor; done. Qed.

(** ** Ratings *)

Lemma ensureUserAlbum_tables now db uid aid :
  let db' := ensureUserAlbum now db uid aid in
  users db' = users db /\ albums db' = albums db
  /\ track_ratings db' = track_ratings db
  /\ next_album_id db' = next_album_id db.
Proof. unfold ensureUserAlbum. now case_bool_decide. Qed.

Lemma ensureUserAlbum_present now db uid aid :
  (uid, aid) ∈ ua_key <$> user_albums (ensureUserAlbum now db uid aid).
Proof.
  unfold ensureUserAlbum. case_bool_decide as Hin; [done|].
  cbn. rewrite fmap_app. apply elem_of_app. right. cbn. left.
Qed.

(** The handler, once the session and the fields are there: the range
    check on [Number(rating)] decides between the rating failure and the
    three store statements. *)
Lemma post_ratings_checked now db sess uid req :
  requireLogin sess = Some uid ->
  rating_fields_present req = true ->
  JS.eq_null (rb_rating req) = false ->
  post_ratings now db sess req =
  if rating_out_of_range (JS.Number (rb_rating req))
  then (db, sess, RatingError)
  else (rated now db uid req (integer_of (JS.Number (rb_rating req))),
        sess, json BSuccess).
Proof.
  intros Hlogin Hpresent Hnull. unfold post_ratings, rated, rating_out_of_range.
  unfold rating_fields_present in Hpresent.
  apply andb_true_iff in Hpresent as [Hpresent Hname].
  apply andb_true_iff in Hpresent as [Halbum Htrack].
  rewrite Hlogin, Halbum, Htrack, Hname, Hnull. cbn [negb orb].
  destruct (negb _ || _ || _); [done|].
  now destruct (findOrCreateAlbum _ _ _ _ _).
Qed.

Lemma rated_tables now db uid req r :
  let found :=
    findOrCreateAlbum db (text (rb_albumExternalId req))
      (text_or (rb_albumTitle req) (js "Unknown album"))
      (text_or (rb_albumArtist req) (js "Unknown artist"))
      (text_or_null (rb_coverUrl req)) in
  albums (rated now db uid req r) = albums found.2
  /\ track_ratings (rated now db uid req r) =
     upsert_rating_row now uid found.1 (text (rb_trackId req))
       (text (rb_trackName req)) r (track_ratings db).
Proof.
  intros found. unfold rated. fold found. cbn [set_track_ratings albums track_ratings].
  destruct (ensureUserAlbum_tables now found.2 uid found.1) as (_ & -> & -> & _).
  split; [done|]. f_equal. subst found. apply findOrCreateAlbum_tables.
Qed.

Lemma rated_ok now db uid req r : db_ok db -> db_ok (rated now db uid req r).
Proof.
  intros Hok. unfold rated.
  set (found := findOrCreateAlbum _ _ _ _ _).
  assert (db_ok (ensureUserAlbum now found.2 uid found.1)) as Hok2
    by (apply ensureUserAlbum_ok; subst found; now apply findOrCreateAlbum_ok).
  apply set_track_ratings_ok; [done|].
  apply upsert_rating_row_NoDup. now destruct Hok2.
Qed.

(** An accepted rating is stored under the key of the request. *)
Lemma post_ratings_accepts now db sess uid req v z :
  requireLogin sess = Some uid ->
  rating_fields_present req = true ->
  JS.eq_null v = false ->
  rating_out_of_range (JS.Number v) = false ->
  integer_of (JS.Number v) = z ->
  let o := post_ratings now db sess (with_rating req v) in
  out_response o = json BSuccess
  /\ exists row, row ∈ track_ratings (out_db o)
                 /\ tr_user_id row = uid
                 /\ tr_track_id row = text (rb_trackId req)
                 /\ tr_rating row = z.
Proof.
  intros Hlogin Hpresent Hnull Hrange Hz o. subst o.
  rewrite (post_ratings_checked _ _ _ uid) by done.
  cbn [with_rating rb_rating]. rewrite Hrange, Hz. split; [done|].
  cbn [out_db fst].
  destruct (rated_tables now db uid (with_rating req v) z) as [_ ->].
  edestruct upsert_rating_row_stored as (row & Hin & Hkey & Hr & _).
  exists row. split; [exact Hin|]. injection Hkey as ? ? ?. done.
Qed.

Lemma post_ratings_refuses now db sess uid req v :
  requireLogin sess = Some uid ->
  rating_fields_present req = true ->
  JS.eq_null v = false ->
  rating_out_of_range (JS.Number v) = true ->
  post_ratings now db sess (with_rating req v) = (db, sess, RatingError).
Proof.
  intros Hlogin Hpresent Hnull Hrange.
  rewrite (post_ratings_checked _ _ _ uid) by done.
  cbn [with_rating rb_rating]. now rewrite Hrange.
Qed.

(** C5: for a logged-in user and a request that names the album, the
    track and the track name, the ratings 0, 6 and 3.5 are refused with
    the rating failure (status 400) and nothing is stored; the ratings 1
    and 5 are accepted and stored. *)
Theorem post_ratings_boundaries now db sess uid req :
  requireLogin sess = Some uid ->
  rating_fields_present req = true ->
  Forall (fun v => post_ratings now db sess (with_rating req v)
                   = (db, sess, RatingError))
    [JS.Number_ (JS.of_Z 0); JS.Number_ (JS.of_Z 6); JS.Number_ (JS.Finite (7 # 2))]
  /\ Forall (fun z =>
       let o := post_ratings now db sess (with_rating req (JS.Number_ (JS.of_Z z))) in
       out_response o = json BSuccess
       /\ exists row, row ∈ track_ratings (out_db o)
                      /\ tr_user_id row = uid
                      /\ tr_track_id row = text (rb_trackId req)
                      /\ tr_rating row = z)
    [1%Z; 5%Z].
Proof.
  intros Hlogin Hpresent. split.
  - repeat (apply Forall_cons_2 || apply Forall_nil_2);
      now apply (post_ratings_refuses _ _ _ uid).
  - repeat (apply Forall_cons_2 || apply Forall_nil_2);
      now apply (post_ratings_accepts _ _ _ uid).
Qed.

(** C9: a rating sent as a string goes through [Number] before the
    check, so a string whose numeric value is an integer from 1 to 5 is
    accepted, and that integer is what is stored. *)
Theorem post_ratings_numeric_string now db sess uid req (s : JsString) q (n : Z) :
  requireLogin sess = Some uid ->
  rating_fields_present req = true ->
  JS.Number (JS.String_ s) = JS.Finite q ->
  Qeq q (inject_Z n) ->
  (1 <= n <= 5)%Z ->
  let o := post_ratings now db sess (with_rating req (JS.String_ s)) in
  out_response o = json BSuccess
  /\ exists row, row ∈ track_ratings (out_db o)
                 /\ tr_user_id row = uid
                 /\ tr_track_id row = text (rb_trackId req)
                 /\ tr_rating row = n.
Proof.
  intros Hlogin Hpresent Hnum Hq Hn.
  assert (Qfloor q = n) as Hfloor by (rewrite Hq; apply Qfloor_Z).
  apply (post_ratings_accepts _ _ _ uid); try done.
  - rewrite Hnum. unfold rating_out_of_range, JS.isInteger, JS.lt, JS.of_Z.
    rewrite Hfloor.
    assert (Qeq_bool (inject_Z n) q = true) as ->
      by (apply Qeq_bool_iff; now symmetry).
    assert (Qle_bool (inject_Z 1) q = true) as ->
      by (apply Qle_bool_iff; rewrite Hq, <- Zle_Qle; lia).
    assert (Qle_bool q (inject_Z 5) = true) as ->
      by (apply Qle_bool_iff; rewrite Hq, <- Zle_Qle; lia).
    done.
  - now rewrite Hnum.
Qed.

Lemma select_album_ids_albums db db' e :
  albums db' = albums db -> select_album_ids db' e = select_album_ids db e.
Proof. unfold select_album_ids, albums_with. now intros ->. Qed.

(** C4: in a store that satisfies its unique keys, two rating requests of
    the same user for the same album and track, with the ratings 3 and
    then 5, both succeed and leave exactly one row for that key; the row
    holds the rating 5 and the time of the second request, and the unique
    keys still hold. *)
Theorem post_ratings_twice now1 now2 db sess uid req1 req2 :
  db_ok db ->
  requireLogin sess = Some uid ->
  rating_fields_present req1 = true ->
  rating_fields_present req2 = true ->
  rb_albumExternalId req2 = rb_albumExternalId req1 ->
  rb_trackId req2 = rb_trackId req1 ->
  rb_rating req1 = JS.Number_ (JS.of_Z 3) ->
  rb_rating req2 = JS.Number_ (JS.of_Z 5) ->
  let o1 := post_ratings now1 db sess req1 in
  let o2 := post_ratings now2 (out_db o1) (out_session o1) req2 in
  out_response o1 = json BSuccess /\ out_response o2 = json BSuccess
  /\ db_ok (out_db o2)
  /\ exists aid row,
       head (select_album_ids (out_db o2) (text (rb_albumExternalId req1))) = Some aid
       /\ filter (fun r => tr_key r = (uid, aid, text (rb_trackId req1)))
            (track_ratings (out_db o2)) = [row]
       /\ tr_rating row = 5%Z /\ tr_updated_at row = now2.
Proof.
  intros Hok Hlogin Hp1 Hp2 Halbum Htrack Hr1 Hr2 o1 o2.
  assert (o1 = (rated now1 db uid req1 3, sess, json BSuccess)) as E1.
  { subst o1. rewrite (post_ratings_checked _ _ _ uid) by (try done; now rewrite Hr1).
    now rewrite Hr1. }
  assert (o2 = (rated now2 (rated now1 db uid req1 3) uid req2 5, sess, json BSuccess))
    as E2.
  { subst o2. rewrite E1. cbn [out_db out_session fst snd].
    rewrite (post_ratings_checked _ _ _ uid) by (try done; now rewrite Hr2).
    now rewrite Hr2. }
  rewrite E1, E2. cbn [out_db out_response fst snd].
  set (db3 := rated now1 db uid req1 3).
  pose proof (rated_ok now1 db uid req1 3 Hok) as Hok3. fold db3 in Hok3.
  pose proof (rated_ok now2 db3 uid req2 5 Hok3) as Hok5.
  destruct (rated_tables now1 db uid req1 3) as [Halb3 _]. fold db3 in Halb3.
  destruct (rated_tables now2 db3 uid req2 5) as [Halb5 Hrows5].
  cbn zeta in *. rewrite Halbum, Htrack in *.
  set (found1 := findOrCreateAlbum db (text (rb_albumExternalId req1))
                   (text_or (rb_albumTitle req1) (js "Unknown album"))
                   (text_or (rb_albumArtist req1) (js "Unknown artist"))
                   (text_or_null (rb_coverUrl req1))) in *.
  rewrite (findOrCreateAlbum_again db _ _ _ _ db3) in Halb5, Hrows5 by exact Halb3.
  fold found1 in Halb5, Hrows5. cbn [fst snd] in Halb5, Hrows5.
  split_and!; [done | done | done |].
  destruct (upsert_rating_row_stored now2 uid found1.1 (text (rb_trackId req1))
              (text (rb_trackName req2)) 5 (track_ratings db3))
    as (row & Hin & Hkey & Hrating & Htime).
  exists found1.1, row. split_and!; [| | done | done].
  - rewrite (select_album_ids_albums found1.2) by (now rewrite Halb5).
    subst found1. now destruct (findOrCreateAlbum_select db
      (text (rb_albumExternalId req1))
      (text_or (rb_albumTitle req1) (js "Unknown album"))
      (text_or (rb_albumArtist req1) (js "Unknown artist"))
      (text_or_null (rb_coverUrl req1))) as [rest ->].
  - rewrite <- Hkey. rewrite <- Hrows5 in Hin. apply filter_unique; [|done].
    now destruct Hok5.
Qed.

(** ** Notes *)

(** C10: for a logged-in user and a request that names the album, the
    handler always rewrites the notes after making sure the user's row for
    the album exists: afterwards the row is there and every such row holds
    [notes || null].  For a [notes] field that is absent or falsy that
    value is NULL, whatever was stored before; absent, null, the empty
    string, 0 and false are all falsy. *)
Theorem post_album_notes_overwrites now db sess uid req :
  requireLogin sess = Some uid ->
  truthy_text (nb_albumExternalId req) = true ->
  let o := post_album_notes now db sess req in
  out_response o = json BSuccess
  /\ (exists aid,
        head (select_album_ids (out_db o) (text (nb_albumExternalId req))) = Some aid
        /\ (uid, aid) ∈ ua_key <$> user_albums (out_db o)
        /\ forall ua, ua ∈ user_albums (out_db o) -> ua_key ua = (uid, aid) ->
                      ua_notes ua = JS.or (nb_notes req) JS.Null)
  /\ (JS.truthy (nb_notes req) = false -> JS.or (nb_notes req) JS.Null = JS.Null)
  /\ Forall (fun v => JS.truthy v = false)
       [JS.Undefined; JS.Null; JS.String_ []; JS.Number_ (JS.of_Z 0); JS.Bool false].
Proof.
  intros Hlogin Halbum o. subst o. unfold post_album_notes.
  rewrite Hlogin, Halbum. cbn [negb].
  destruct (findOrCreateAlbum_select db (text (nb_albumExternalId req))
              (text_or (nb_albumTitle req) (js "Unknown album"))
              (text_or (nb_albumArtist req) (js "Unknown artist"))
              (text_or_null (nb_coverUrl req))) as [rest Hsel].
  destruct (findOrCreateAlbum _ _ _ _ _) as [aid db1].
  cbn [fst snd] in Hsel. cbn [out_db out_response fst snd].
  split_and!; [done | | | repeat constructor].
  - exists aid. split_and!.
    + rewrite (select_album_ids_albums db1), Hsel; [done|].
      cbn. apply ensureUserAlbum_tables.
    + rewrite update_notes_keys. apply ensureUserAlbum_present.
    + intros ua Hin Hkey. unfold update_notes in Hin. cbn in Hin.
      apply list_elem_of_fmap in Hin as (ua0 & -> & _).
      case_bool_decide as Hk; [done|]. contradiction.
  - intros Hfalsy. unfold JS.or. now rewrite Hfalsy.
Qed.

(** ** The album listing *)

Lemma newer_first_total : Total newer_first.
Proof. intros r1 r2. unfold newer_first. lia. Qed.

Lemma get_user_albums_sorted db sess uid :
  requireLogin sess = Some uid ->
  exists rows, get_user_albums db sess = json (BAlbums rows)
               /\ Sorted newer_first rows /\ rows ≡ₚ joined_albums db uid.
Proof.
  intros Hlogin. unfold get_user_albums. rewrite Hlogin.
  eexists. split; [reflexivity|]. unfold order_by_created_at_desc. split.
  - exact (@Sorted_merge_sort _ newer_first _ newer_first_total _).
  - apply merge_sort_Permutation.
Qed.

Lemma post_user_albums_checked now db sess uid req :
  requireLogin sess = Some uid ->
  album_fields_present req = true ->
  post_user_albums now db sess req =
  (journaled now db uid req, sess,
   json (BAlbumSaved (findOrCreateAlbum db (text (ab_externalId req))
                        (text (ab_title req)) (text (ab_artist req))
                        (text_or_null (ab_coverUrl req))).1)).
Proof.
  intros Hlogin Hpresent. unfold post_user_albums, journaled.
  unfold album_fields_present in Hpresent.
  apply andb_true_iff in Hpresent as [Hpresent Hartist].
  apply andb_true_iff in Hpresent as [Hext Htitle].
  rewrite Hlogin, Hext, Htitle, Hartist. cbn [negb orb].
  now destruct (findOrCreateAlbum _ _ _ _ _).
Qed.

Lemma journaled_ok now db uid req : db_ok db -> db_ok (journaled now db uid req).
Proof.
  intros Hok. unfold journaled. apply ensureUserAlbum_ok.
  now apply findOrCreateAlbum_ok.
Qed.

(** Journaling an album the user does not have yet appends one row, stamped
    with the time of the request. *)
Lemma journaled_fresh now db uid req :
  let found :=
    findOrCreateAlbum db (text (ab_externalId req)) (text (ab_title req))
      (text (ab_artist req)) (text_or_null (ab_coverUrl req)) in
  (uid, found.1) ∉ ua_key <$> user_albums db ->
  user_albums (journaled now db uid req) =
  user_albums db ++ [ {| ua_user_id := uid; ua_album_id := found.1;
                         ua_notes := JS.Null; ua_created_at := now |} ]
  /\ albums (journaled now db uid req) = albums found.2.
Proof.
  intros found Hfresh. unfold journaled. fold found. unfold ensureUserAlbum.
  assert (user_albums found.2 = user_albums db) as Hua
    by (subst found; apply findOrCreateAlbum_tables).
  rewrite Hua. now rewrite bool_decide_eq_false_2.
Qed.

Lemma unique_key_inj {A B} (f : A -> B) (l : list A) x y :
  NoDup (f <$> l) -> x ∈ l -> y ∈ l -> f x = f y -> x = y.
Proof.
  induction l as [|a l IH]; intros Hnd Hx Hy Heq; [inversion Hx|].
  rewrite fmap_cons in Hnd. apply NoDup_cons in Hnd as [Hfresh Hnd].
  apply elem_of_cons in Hx as [-> | Hx]; apply elem_of_cons in Hy as [-> | Hy].
  - done.
  - exfalso. apply Hfresh. rewrite Heq. now apply list_elem_of_fmap_2.
  - exfalso. apply Hfresh. rewrite <- Heq. now apply list_elem_of_fmap_2.
  - now apply IH.
Qed.

(** Two rows sorted newest first, when the second was stamped strictly
    later than the first: whatever the sort, the later one comes first. *)
Lemma two_rows_newest_first (rA rB : AlbumRow) rows :
  (r_created_at rA < r_created_at rB)%N ->
  Sorted newer_first rows -> rows ≡ₚ [rA; rB] -> rows = [rB; rA].
Proof.
  intros Hlt Hsorted Hperm. symmetry in Hperm.
  apply Permutation_length_2_inv in Hperm as [-> | ->]; [|done].
  apply Sorted_inv in Hsorted as [_ Hhd]. inversion Hhd as [|? ? Hrel]; subst.
  unfold newer_first in Hrel. lia.
Qed.

(** C8, amended: the listing of a logged-in user holds the user's
    journaled albums sorted by created_at, newest first; and when a user
    with an empty journal saves album A and then another album B whose
    created_at is strictly later, the listing is B followed by A. *)
Theorem get_user_albums_newest_first tA tB db sess uid reqA reqB :
  requireLogin sess = Some uid ->
  (exists rows, get_user_albums db sess = json (BAlbums rows)
                /\ Sorted newer_first rows /\ rows ≡ₚ joined_albums db uid)
  /\ (db_ok db ->
      album_fields_present reqA = true ->
      album_fields_present reqB = true ->
      text (ab_externalId reqA) <> text (ab_externalId reqB) ->
      (forall ua, ua ∈ user_albums db -> ua_user_id ua <> uid) ->
      (tA < tB)%N ->
      let oA := post_user_albums tA db sess reqA in
      let oB := post_user_albums tB (out_db oA) (out_session oA) reqB in
      exists rA rB,
        get_user_albums (out_db oB) (out_session oB) = json (BAlbums [rB; rA])
        /\ r_external_id rA = text (ab_externalId reqA) /\ r_created_at rA = tA
        /\ r_external_id rB = text (ab_externalId reqB) /\ r_created_at rB = tB).
Proof.
  intros Hlogin. split; [now apply get_user_albums_sorted|].
  intros Hok HpA HpB Hdistinct Hempty Hlt oA oB.
  subst oB oA. rewrite (post_user_albums_checked tA db sess uid reqA) by done.
  cbn [out_db out_session fst snd].
  rewrite (post_user_albums_checked _ _ _ uid) by done.
  cbn [out_db out_session fst snd].
  set (dbA := journaled tA db uid reqA).
  set (dbB := journaled tB dbA uid reqB).
  pose proof (journaled_ok tA db uid reqA Hok) as HokA. fold dbA in HokA.
  pose proof (journaled_ok tB dbA uid reqB HokA) as HokB. fold dbB in HokB.
  (* the two albums *)
  destruct (findOrCreateAlbum_stored db (text (ab_externalId reqA))
              (text (ab_title reqA)) (text (ab_artist reqA))
              (text_or_null (ab_coverUrl reqA))) as (albA & HinA & HidA & HextA).
  destruct (findOrCreateAlbum_stored dbA (text (ab_externalId reqB))
              (text (ab_title reqB)) (text (ab_artist reqB))
              (text_or_null (ab_coverUrl reqB))) as (albB & HinB & HidB & HextB).
  set (foundA := findOrCreateAlbum db _ _ _ _) in *.
  set (foundB := findOrCreateAlbum dbA _ _ _ _) in *.
  (* the first journal entry *)
  destruct (journaled_fresh tA db uid reqA) as [HuaA HalbA].
  { intros Hin. apply list_elem_of_fmap in Hin as (ua & Hkey & Hua).
    injection Hkey as Hu _. symmetry in Hu. now apply (Hempty ua). }
  fold foundA dbA in HuaA, HalbA.
  (* the album tables only grow *)
  assert (albums dbB = albums foundB.2) as HalbB
    by (subst dbB; unfold journaled; apply ensureUserAlbum_tables).
  assert (albA ∈ albums dbB) as HinA'.
  { rewrite HalbB. subst foundB.
    destruct (findOrCreateAlbum_tables dbA (text (ab_externalId reqB))
                (text (ab_title reqB)) (text (ab_artist reqB))
                (text_or_null (ab_coverUrl reqB))) as (_ & _ & _ & _ & new & ->).
    apply elem_of_app. left. now rewrite HalbA. }
  assert (albB ∈ albums dbB) as HinB' by now rewrite HalbB.
  assert (NoDup (a_id <$> albums dbB)) as Hids by now destruct HokB.
  assert (foundA.1 <> foundB.1) as Hne.
  { intros Heq. apply Hdistinct. rewrite <- HextA, <- HextB. f_equal.
    apply (unique_key_inj a_id (albums dbB)); [done | done | done |].
    now rewrite HidA, HidB. }
  (* the second journal entry *)
  destruct (journaled_fresh tB dbA uid reqB) as [HuaB _].
  { fold foundB. rewrite HuaA, fmap_app. intros Hin.
    apply elem_of_app in Hin as [Hin | Hin].
    - apply list_elem_of_fmap in Hin as (ua & Hkey & Hua).
      injection Hkey as Hu _. symmetry in Hu. now apply (Hempty ua).
    - apply list_elem_of_singleton in Hin. injection Hin as Hid.
      now apply Hne. }
  fold foundB dbB in HuaB.
  (* the join *)
  assert (joined_albums dbB uid =
          [ album_row {| ua_user_id := uid; ua_album_id := foundA.1;
                         ua_notes := JS.Null; ua_created_at := tA |} albA;
            album_row {| ua_user_id := uid; ua_album_id := foundB.1;
                         ua_notes := JS.Null; ua_created_at := tB |} albB ]) as Hjoin.
  { unfold joined_albums. rewrite HuaB, HuaA, <- app_assoc, filter_app.
    rewrite (filter_none _ (user_albums db)) by (intros ua Hua; now apply Hempty).
    cbn [app]. rewrite filter_cons_True by done. rewrite filter_cons_True by done.
    rewrite filter_nil. cbn [mbind list_bind ua_album_id app].
    rewrite (filter_unique_at a_id _ albA), (filter_unique_at a_id _ albB) by done.
    reflexivity. }
  destruct (get_user_albums_sorted dbB sess uid Hlogin) as (rows & -> & Hsorted & Hperm).
  rewrite Hjoin in Hperm.
  apply two_rows_newest_first in Hperm; [|exact Hlt|exact Hsorted].
  rewrite Hperm. eexists _, _. split; [reflexivity|]. done.
Qed.

(** ** Reading the ratings back *)

Lemma ratings_fold_proto rows : forall acc,
  fold_left ratings_step rows acc !! js "__proto__" = acc !! js "__proto__".
Proof.
  induction rows as [|x rows IH]; intros acc; cbn [fold_left]; [done|].
  rewrite IH. unfold ratings_step, JS.assign. case_bool_decide as Hk; [done|].
  now rewrite lookup_insert_ne.
Qed.

Lemma ratings_fold_other rows k : forall acc,
  k ∉ tr_track_id <$> rows ->
  fold_left ratings_step rows acc !! k = acc !! k.
Proof.
  induction rows as [|x rows IH]; intros acc Hk; cbn [fold_left]; [done|].
  rewrite fmap_cons in Hk. apply not_elem_of_cons in Hk as [Hne Hk].
  rewrite IH by done. unfold ratings_step, JS.assign. case_bool_decide; [done|].
  now rewrite lookup_insert_ne.
Qed.

Lemma ratings_fold_row rows row : forall acc,
  NoDup (tr_track_id <$> rows) -> row ∈ rows ->
  tr_track_id row <> js "__proto__" ->
  fold_left ratings_step rows acc !! tr_track_id row = Some (rating_entry row).
Proof.
  induction rows as [|x rows IH]; intros acc Hnd Hin Hne; [inversion Hin|].
  rewrite fmap_cons in Hnd. apply NoDup_cons in Hnd as [Hfresh Hnd].
  cbn [fold_left]. apply elem_of_cons in Hin as [-> | Hin].
  - rewrite ratings_fold_other by done. unfold ratings_step, JS.assign.
    rewrite bool_decide_eq_false_2 by done. apply lookup_insert_eq.
  - now apply IH.
Qed.

Lemma select_ratings_track_ids db uid aid :
  db_ok db -> NoDup (tr_track_id <$> select_ratings db uid aid).
Proof.
  intros Hok. unfold select_ratings.
  set (rows := filter _ (track_ratings db)).
  assert (NoDup (tr_key <$> rows)) as Hkeys.
  { apply (sublist_NoDup _ (tr_key <$> track_ratings db)); [now destruct Hok|].
    apply fmap_sublist, sublist_filter. }
  assert (tr_key <$> rows = (fun t => (uid, aid, t)) <$> (tr_track_id <$> rows)) as Heq.
  { rewrite <- list_fmap_compose. apply list_fmap_ext. intros i r Hr.
    apply list_elem_of_lookup_2, list_elem_of_filter in Hr as [[<- <-] _]. done. }
  rewrite Heq in Hkeys. now apply NoDup_fmap_1 in Hkeys.
Qed.

(** An external id that names no album gives the empty mapping with
    status 200. *)
Lemma get_ratings_unknown_album db sess uid e :
  requireLogin sess = Some uid ->
  select_album_ids db e = [] ->
  get_ratings db sess e = json (BRatings ∅).
Proof. intros Hlogin Hnone. unfold get_ratings. now rewrite Hlogin, Hnone. Qed.

(** For a known album the mapping holds, under every key but "__proto__",
    the user's rating of that track, and nothing else; the key "__proto__"
    is never there. *)
Lemma get_ratings_mapping db sess uid e aid rest :
  db_ok db ->
  requireLogin sess = Some uid ->
  select_album_ids db e = aid :: rest ->
  exists m, get_ratings db sess e = json (BRatings m)
    /\ m !! js "__proto__" = None
    /\ forall k entry, k <> js "__proto__" ->
         (m !! k = Some entry <->
          exists row, row ∈ track_ratings db /\ tr_key row = (uid, aid, k)
                      /\ entry = rating_entry row).
Proof.
  intros Hok Hlogin Hsel. unfold get_ratings. rewrite Hlogin, Hsel.
  eexists. split; [reflexivity|]. unfold ratings_map. split.
  - now rewrite ratings_fold_proto.
  - intros k entry Hk.
    pose proof (select_ratings_track_ids db uid aid Hok) as Hnd. split.
    + intros Hm.
      destruct (decide (k ∈ tr_track_id <$> select_ratings db uid aid)) as [Hin | Hout].
      * apply list_elem_of_fmap in Hin as (row & -> & Hrow).
        rewrite ratings_fold_row in Hm by done. injection Hm as <-.
        exists row. unfold select_ratings in Hrow.
        apply list_elem_of_filter in Hrow as [[<- <-] Hrow]. done.
      * rewrite ratings_fold_other in Hm by done. discriminate Hm.
    + intros (row & Hrow & Hkey & ->). injection Hkey as Hu Ha <-.
      apply ratings_fold_row; [done | | done].
      unfold select_ratings. apply list_elem_of_filter. done.
Qed.

(** C7, the defect: bob rates the track whose id is "__proto__" on album
    "A"; the rating is stored, and reading the ratings of "A" back gives
    the empty mapping. *)
Theorem get_ratings_loses_proto_key :
  let o := post_ratings 7%N db_with_bob bob_session proto_rating in
  out_response o = json BSuccess
  /\ select_ratings (out_db o) 1 1 =
     [ {| tr_user_id := 1; tr_album_id := 1; tr_track_id := js "__proto__";
          tr_track_name := js "Intro"; tr_rating := 4; tr_updated_at := 7%N |} ]
  /\ select_album_ids (out_db o) (js "A") = [1%N]
  /\ get_ratings (out_db o) bob_session (js "A") = json (BRatings ∅).
Proof. vm_compute. done. Qed.

(** ** The unique keys are kept by every route *)

Section Preservation.
Context {B : Bcrypt}.

Lemma insert_user_ok now db u h :
  db_ok db -> findUserByUsername db u = None -> db_ok (insert_user now db u h).2.
Proof.
  intros [? ? Hfresh ? ? ? ? ?] Hfree. rewrite findUserByUsername_None in Hfree.
  constructor; cbn [insert_user snd users albums user_albums track_ratings
    next_user_id next_album_id]; try done.
  - rewrite fmap_app. apply NoDup_app. split_and!; [done | | apply NoDup_singleton].
    intros id Hid Hnew. apply list_elem_of_singleton in Hnew. cbn in Hnew. subst id.
    apply list_elem_of_fmap in Hid as (usr & Heq & Hin).
    rewrite Forall_forall in Hfresh. specialize (Hfresh usr Hin). lia.
  - rewrite fmap_app. apply NoDup_app. split_and!; [done | | apply NoDup_singleton].
    intros x Hx Hnew. apply list_elem_of_singleton in Hnew. cbn in Hnew. subst x.
    apply list_elem_of_fmap in Hx as (usr & Heq & Hin). apply Hfree. now exists usr.
  - apply Forall_app. split.
    + eapply Forall_impl; [eassumption|]. cbn. intros. lia.
    + constructor; [cbn; lia | constructor].
Qed.

Lemma post_register_ok salt now db sess req :
  db_ok db -> db_ok (out_db (post_register salt now db sess req)).
Proof.
  intros Hok. unfold post_register.
  destruct (negb _ || negb _); [done|].
  destruct (negb (passwordMeetsRequirements _)); [done|].
  destruct (findUserByUsername db _) eqn:Hfind; [done|].
  pose proof (insert_user_ok now db (text (cr_username req))
                (bcrypt_hash (text (cr_password req)) 10 salt) Hok Hfind) as Hok'.
  now destruct (insert_user _ _ _ _).
Qed.

Lemma post_login_db db sess req : out_db (post_login db sess req) = db.
Proof.
  unfold post_login. destruct (negb _ || negb _); [done|].
  destruct (findUserByUsername db _); [|done].
  destruct (lg_password req); try done.
  now destruct (negb (bcrypt_compare _ _)).
Qed.

End Preservation.

Lemma post_user_albums_ok now db sess req :
  db_ok db -> db_ok (out_db (post_user_albums now db sess req)).
Proof.
  intros Hok. unfold post_user_albums. destruct (requireLogin sess); [|done].
  destruct (negb _ || negb _ || negb _); [done|].
  pose proof (findOrCreateAlbum_ok db (text (ab_externalId req)) (text (ab_title req))
                (text (ab_artist req)) (text_or_null (ab_coverUrl req)) Hok) as Hok1.
  destruct (findOrCreateAlbum _ _ _ _ _). now apply ensureUserAlbum_ok.
Qed.

Lemma post_album_notes_ok now db sess req :
  db_ok db -> db_ok (out_db (post_album_notes now db sess req)).
Proof.
  intros Hok. unfold post_album_notes. destruct (requireLogin sess); [|done].
  destruct (negb _); [done|].
  pose proof (findOrCreateAlbum_ok db (text (nb_albumExternalId req))
                (text_or (nb_albumTitle req) (js "Unknown album"))
                (text_or (nb_albumArtist req) (js "Unknown artist"))
                (text_or_null (nb_coverUrl req)) Hok) as Hok1.
  destruct (findOrCreateAlbum _ _ _ _ _).
  now apply update_notes_ok, ensureUserAlbum_ok.
Qed.

Lemma post_ratings_ok now db sess req :
  db_ok db -> db_ok (out_db (post_ratings now db sess req)).
Proof.
  intros Hok. unfold post_ratings. destruct (requireLogin sess) as [uid|]; [|done].
  destruct (negb _ || negb _ || negb _ || JS.eq_null _); [done|].
  destruct (negb _ || _ || _); [done|].
  pose proof (rated_ok now db uid req (integer_of (JS.Number (rb_rating req))) Hok)
    as Hrated.
  unfold rated in Hrated. now destruct (findOrCreateAlbum _ _ _ _ _).
Qed.

(** Every store the server reaches satisfies the unique keys. *)
Lemma reachable_ok {B : Bcrypt} db : reachable db -> db_ok db.
Proof.
  induction 1 as [|db sess r _ IH]; [apply db_ok_empty|].
  destruct r; cbn [handle].
  - now apply post_register_ok.
  - now rewrite post_login_db.
  - now apply post_user_albums_ok.
  - now apply post_album_notes_ok.
  - now apply post_ratings_ok.
Qed.

Lemma db_with_bob_ok : db_ok db_with_bob.
Proof. apply post_register_ok, db_ok_empty. Qed.

(** ** Concrete runs *)

Lemma register_weak_password_witness :
  js "bob" <> []
  /\ spec_password_ok (js "abcdefg1") = false
  /\ out_response
       (@post_register example_bcrypt (js "s1") 5%N empty_db no_session
          (credentials (js "bob") (js "abcdefg1")))
     = WeakPasswordError.
Proof.
  assert (js "bob" <> []) as Hu by discriminate.
  split; [exact Hu|]. split; [reflexivity|].
  apply (proj2 (proj1 (@register_weak_password example_bcrypt (js "s1") 5%N
                         empty_db no_session (js "bob") Hu)
                  (js "abcdefg1") ltac:(discriminate) eq_refl)).
  reflexivity.
Defined.

(** Stated for every pair, the equivalence fails on the guard that comes
    first: with an empty username, or an empty password, the password
    misses the requirements and the failure is the missing-credentials one. *)
Lemma register_weak_password_counterexample :
  spec_password_ok (js "abc") = false
  /\ out_response
       (@post_register example_bcrypt (js "s1") 5%N empty_db no_session
          (credentials [] (js "abc")))
     = MissingCredentials
  /\ spec_password_ok [] = false
  /\ out_response
       (@post_register example_bcrypt (js "s1") 5%N empty_db no_session
          (credentials (js "bob") []))
     = MissingCredentials
  /\ MissingCredentials <> WeakPasswordError.
Proof. split_and!; try reflexivity. discriminate. Qed.

(** A password that meets the five requirements and holds a line feed is
    turned down by the dot of the regular expression. *)
Example register_rejects_line_terminator :
  spec_password_ok (js "Abcdef1!" ++ [10%N]) = true
  /\ passwordMeetsRequirements (js "Abcdef1!" ++ [10%N]) = false
  /\ out_response
       (@post_register example_bcrypt (js "s1") 5%N empty_db no_session
          (credentials (js "bob") (js "Abcdef1!" ++ [10%N])))
     = WeakPasswordError.
Proof. split_and!; reflexivity. Qed.

(** With string passwords an unknown username and a wrong password for
    bob get the same response. *)
Example login_string_passwords :
  out_response
    (@post_login example_bcrypt db_with_bob no_session
       (login_body (js "ghost") (js "Abcdef1!")))
  = out_response
      (@post_login example_bcrypt db_with_bob no_session
         (login_body (js "bob") (js "Wrong-pw1"))).
Proof.
  apply (@login_no_enumeration example_bcrypt db_with_bob db_with_bob
           no_session no_session (js "ghost") (js "Abcdef1!") (js "bob")
           (js "Wrong-pw1") bob);
    (discriminate || reflexivity).
Qed.

(** With the empty password both get the missing-credentials failure. *)
Example login_empty_password :
  out_response
    (@post_login example_bcrypt db_with_bob no_session (login_body (js "bob") []))
  = MissingCredentials
  /\ out_response
       (@post_login example_bcrypt db_with_bob no_session
          (login_body (js "ghost") []))
     = MissingCredentials.
Proof. split; reflexivity. Qed.

Lemma register_conflict_witness :
  out_response
    (@post_register example_bcrypt (js "s2") 9%N db_with_bob no_session
       (credentials (js "bob") (js "Str0ng!pw")))
  = ConflictError
  /\ out_response
       (@post_register example_bcrypt (js "s2") 9%N db_with_bob no_session
          (credentials (js "Bob") (js "Str0ng!pw")))
     <> ConflictError.
Proof.
  split.
  - apply (proj1 (@register_conflict example_bcrypt (js "s2") 9%N db_with_bob
                    no_session (js "bob") (js "Str0ng!pw")
                    ltac:(discriminate) eq_refl)).
    exists bob. split; [left | reflexivity].
  - intros Hconflict.
    apply (proj1 (@register_conflict example_bcrypt (js "s2") 9%N db_with_bob
                    no_session (js "Bob") (js "Str0ng!pw")
                    ltac:(discriminate) eq_refl)) in Hconflict
      as (usr & Hin & Hname).
    change (users db_with_bob) with [bob] in Hin.
    apply list_elem_of_singleton in Hin. subst usr. discriminate Hname.
Defined.

(** bob is registered, and a second registration of "bob" with a weak
    password fails on the password, not on the name. *)
Lemma register_conflict_counterexample :
  (exists usr, usr ∈ users db_with_bob /\ u_username usr = js "bob")
  /\ out_response
       (@post_register example_bcrypt (js "s2") 9%N db_with_bob no_session
          (credentials (js "bob") (js "weak")))
     = WeakPasswordError
  /\ WeakPasswordError <> ConflictError.
Proof.
  split_and!; [exists bob; split; [left | reflexivity] | reflexivity | discriminate].
Qed.

Lemma findOrCreateAlbum_first_write_wins_witness :
  albums_with
    (findOrCreateAlbum
       (findOrCreateAlbum empty_db (js "A") (js "First") (js "One") None).2
       (js "A") (js "Second") (js "Two") (Some (js "cover"))).2
    (js "A")
  = [ {| a_id := 1; a_external_id := js "A"; a_title := js "First";
         a_artist := js "One"; a_cover_url := None |} ].
Proof.
  apply (proj1 (proj2 (proj2
           (findOrCreateAlbum_first_write_wins empty_db (js "A") (js "First")
              (js "One") None (js "Second") (js "Two") (Some (js "cover")))))).
  reflexivity.
Defined.

Lemma post_ratings_twice_witness :
  let o1 := post_ratings 10%N db_with_bob bob_session
              (rating_request (js "A") (js "t1") (JS.Number_ (JS.of_Z 3))) in
  let o2 := post_ratings 11%N (out_db o1) (out_session o1)
              (rating_request (js "A") (js "t1") (JS.Number_ (JS.of_Z 5))) in
  exists aid row,
    head (select_album_ids (out_db o2) (js "A")) = Some aid
    /\ filter (fun r => tr_key r = (1%N, aid, js "t1")) (track_ratings (out_db o2))
       = [row]
    /\ tr_rating row = 5%Z /\ tr_updated_at row = 11%N.
Proof.
  apply (post_ratings_twice 10%N 11%N db_with_bob bob_session 1%N
           (rating_request (js "A") (js "t1") (JS.Number_ (JS.of_Z 3)))
           (rating_request (js "A") (js "t1") (JS.Number_ (JS.of_Z 5)))
           db_with_bob_ok eq_refl eq_refl eq_refl eq_refl eq_refl eq_refl eq_refl).
Defined.

Lemma post_ratings_boundaries_witness :
  post_ratings 10%N db_with_bob bob_session
    (rating_request (js "A") (js "t1") (JS.Number_ (JS.Finite (7 # 2))))
  = (db_with_bob, bob_session, RatingError)
  /\ out_response
       (post_ratings 10%N db_with_bob bob_session
          (rating_request (js "A") (js "t1") (JS.Number_ (JS.of_Z 5))))
     = json BSuccess.
Proof.
  destruct (post_ratings_boundaries 10%N db_with_bob bob_session 1%N
              (rating_request (js "A") (js "t1") JS.Undefined) eq_refl eq_refl)
    as [Hrefused Haccepted].
  split.
  - exact (Forall_inv (Forall_inv_tail (Forall_inv_tail Hrefused))).
  - exact (proj1 (Forall_inv (Forall_inv_tail Haccepted))).
Defined.

Lemma post_ratings_numeric_string_witness :
  let o := post_ratings 10%N db_with_bob bob_session
             (rating_request (js "A") (js "t1") (JS.String_ (js "3"))) in
  out_response o = json BSuccess
  /\ exists row, row ∈ track_ratings (out_db o)
                 /\ tr_user_id row = 1%N /\ tr_track_id row = js "t1"
                 /\ tr_rating row = 3%Z.
Proof.
  apply (post_ratings_numeric_string 10%N db_with_bob bob_session 1%N
           (rating_request (js "A") (js "t1") JS.Undefined) (js "3") 3%Q 3%Z
           eq_refl eq_refl eq_refl).
  - reflexivity.
  - lia.
Defined.

Lemma post_album_notes_overwrites_witness :
  let o := post_album_notes 7%N (out_db bob_noted) bob_session
             (notes_request (js "A") JS.Undefined) in
  out_response o = json BSuccess
  /\ exists aid,
       head (select_album_ids (out_db o) (js "A")) = Some aid
       /\ (1%N, aid) ∈ ua_key <$> user_albums (out_db o)
       /\ forall ua, ua ∈ user_albums (out_db o) -> ua_key ua = (1%N, aid) ->
                     ua_notes ua = JS.Null.
Proof.
  destruct (post_album_notes_overwrites 7%N (out_db bob_noted) bob_session 1%N
              (notes_request (js "A") JS.Undefined) eq_refl eq_refl)
    as (Hresponse & Hrows & _).
  split; [exact Hresponse | exact Hrows].
Defined.

(** The notes "hello" were stored before the request without notes, and
    are gone after it. *)
Example post_album_notes_clears :
  ua_notes <$> user_albums (out_db bob_noted) = [JS.String_ (js "hello")]
  /\ ua_notes <$> user_albums
       (out_db (post_album_notes 7%N (out_db bob_noted) bob_session
                  (notes_request (js "A") JS.Undefined)))
     = [JS.Null].
Proof. split; reflexivity. Qed.

Lemma get_user_albums_newest_first_witness :
  let oA := post_user_albums 10%N db_with_bob bob_session
              (album_request (js "A") (js "First album")) in
  let oB := post_user_albums 11%N (out_db oA) (out_session oA)
              (album_request (js "B") (js "Second album")) in
  exists rA rB,
    get_user_albums (out_db oB) (out_session oB) = json (BAlbums [rB; rA])
    /\ r_external_id rA = js "A" /\ r_created_at rA = 10%N
    /\ r_external_id rB = js "B" /\ r_created_at rB = 11%N.
Proof.
  apply (proj2 (get_user_albums_newest_first 10%N 11%N db_with_bob bob_session
                  1%N (album_request (js "A") (js "First album"))
                  (album_request (js "B") (js "Second album")) eq_refl)
           db_with_bob_ok eq_refl eq_refl).
  - discriminate.
  - intros ua Hin. inversion Hin.
  - reflexivity.
Defined.

(** When both albums get the same created_at, ORDER BY does not separate
    them: both orders are sorted, and the listing comes back as A
    followed by B. *)
Lemma get_user_albums_newest_first_counterexample :
  let oA := post_user_albums 10%N db_with_bob bob_session
              (album_request (js "A") (js "First album")) in
  let oB := post_user_albums 10%N (out_db oA) (out_session oA)
              (album_request (js "B") (js "Second album")) in
  exists rA rB,
    get_user_albums (out_db oB) (out_session oB) = json (BAlbums [rA; rB])
    /\ r_external_id rA = js "A" /\ r_created_at rA = 10%N
    /\ r_external_id rB = js "B" /\ r_created_at rB = 10%N
    /\ [rA; rB] <> [rB; rA]
    /\ Sorted newer_first [rA; rB] /\ Sorted newer_first [rB; rA].
Proof.
  eexists _, _. split; [vm_compute; reflexivity|].
  split_and!; try reflexivity.
  - discriminate.
  - repeat constructor; unfold newer_first; cbn; lia.
  - repeat constructor; unfold newer_first; cbn; lia.
Qed.

(** Number on strings, as the rating check sees them. *)
Example number_of_strings :
  JS.Number (JS.String_ (js "3")) = JS.Finite 3
  /\ JS.Number (JS.String_ (js " 4 ")) = JS.Finite 4
  /\ JS.Number (JS.String_ (js "5.0")) = JS.Finite 5
  /\ JS.Number (JS.String_ (js "0x2")) = JS.Finite 2
  /\ JS.Number (JS.String_ (js "1e0")) = JS.Finite 1
  /\ JS.Number (JS.String_ (js "3.5")) = JS.Finite (7 # 2)
  /\ JS.Number (JS.String_ (js "")) = JS.Finite 0
  /\ JS.Number (JS.String_ (js "five")) = JS.NaN.
Proof. split_and!; reflexivity. Qed.

(** * Further properties of index.js *)

(** ** What the password check accepts *)

(** X1: [passwordMeetsRequirements] accepts a password exactly when it has
    at least 8 code units, none of them a line terminator, and holds a
    lowercase letter, an uppercase letter, a digit and a code unit outside
    [A-Za-z0-9]. *)
Theorem passwordMeetsRequirements_accepts (p : list N) :
  passwordMeetsRequirements p = true <->
  8 <= length p
  /\ (forall c, c ∈ p -> is_line_terminator c = false)
  /\ (exists c, c ∈ p /\ is_lower c = true)
  /\ (exists c, c ∈ p /\ is_upper c = true)
  /\ (exists c, c ∈ p /\ is_digit c = true)
  /\ (exists c, c ∈ p /\ is_special c = true).
Proof.
  rewrite passwordMeetsRequirements_spec.
  unfold no_line_terminator, spec_password_ok.
  rewrite !andb_true_iff, forallb_forall, !existsb_exists, Nat.leb_le.
  assert (forall P : N -> Prop,
            (exists c, In c p /\ P c) <-> (exists c, c ∈ p /\ P c)) as Hex.
  { intros P. split; intros (c & Hc & HP); exists c; split; try done;
      now apply list_elem_of_In. }
  rewrite !Hex. split.
  - intros (Hnl & (((Hlen & Hl) & Hu) & Hd) & Hs). split_and!; try done.
    intros c Hc. apply list_elem_of_In, Hnl in Hc. now apply negb_true_iff.
  - intros (Hlen & Hnl & Hl & Hu & Hd & Hs). split_and!; try done.
    intros c Hc. apply negb_true_iff, Hnl. now apply list_elem_of_In.
Qed.

(** ** The login gate and refused requests *)



Section Refusals.
Context {B : Bcrypt}.

(** X3: a writing request that is refused with status 400 or 401 has
    written nothing: the store and the session are the ones it started
    from; in particular no album is created before a request has passed
    its validation. *)
Theorem refused_requests_write_nothing (r : Request) db sess :
  status (out_response (handle r db sess)) = 400%N
  \/ status (out_response (handle r db sess)) = 401%N ->
  out_db (handle r db sess) = db /\ out_session (handle r db sess) = sess.
Proof.
  assert (forall o : Outcome,
            status (out_response o) = 200%N ->
            status (out_response o) = 400%N \/ status (out_response o) = 401%N ->
            out_db o = db /\ out_session o = sess) as Hok
    by (intros o -> [? | ?]; discriminate).
  destruct r as [salt now c | c | now b | now b | now b]; cbn [handle].
  - unfold post_register.
    destruct (negb _ || negb _); [done|].
    destruct (negb (passwordMeetsRequirements _)); [done|].
    destruct (findUserByUsername db _); [done|].
    destruct (insert_user _ _ _ _). now apply Hok.
  - unfold post_login.
    destruct (negb _ || negb _); [done|].
    destruct (findUserByUsername db _); [|done].
    destruct (lg_password c); try done.
    destruct (negb (bcrypt_compare _ _)); [done|]. now apply Hok.
  - unfold post_user_albums. destruct (requireLogin sess); [|done].
    destruct (negb _ || negb _ || negb _); [done|].
    destruct (findOrCreateAlbum _ _ _ _ _). now apply Hok.
  - unfold post_album_notes. destruct (requireLogin sess); [|done].
    destruct (negb _); [done|].
    destruct (findOrCreateAlbum _ _ _ _ _). now apply Hok.
  - unfold post_ratings. destruct (requireLogin sess); [|done].
    destruct (negb _ || negb _ || negb _ || JS.eq_null _); [done|].
    destruct (negb _ || _ || _); [done|].
    destruct (findOrCreateAlbum _ _ _ _ _). now apply Hok.
Qed.

End Refusals.

Lemma refused_requests_write_nothing_witness :
  out_db (@handle example_bcrypt
            (SaveRating 9%N (rating_request (js "A") (js "t1") (JS.Number_ (JS.of_Z 9))))
            db_with_bob bob_session) = db_with_bob.
Proof.
  apply (@refused_requests_write_nothing example_bcrypt
           (SaveRating 9%N (rating_request (js "A") (js "t1") (JS.Number_ (JS.of_Z 9))))
           db_with_bob bob_session).
  left. reflexivity.
Defined.

(** ** Accounts over time *)

Lemma head_filter_app {A} (P : A -> Prop) `{!forall x, Decision (P x)}
    (l k : list A) (x : A) :
  head (filter P l) = Some x -> head (filter P (l ++ k)) = Some x.
Proof.
  intros Hhd. rewrite filter_app. now destruct (filter P l).
Qed.

Lemma findUserByUsername_app db db' u usr more :
  users db' = users db ++ more ->
  findUserByUsername db u = Some usr -> findUserByUsername db' u = Some usr.
Proof.
  unfold findUserByUsername. intros ->. apply head_filter_app.
Qed.

Lemma findUserByUsername_new db db' u new :
  users db' = users db ++ [new] -> u_username new = u ->
  findUserByUsername db u = None -> findUserByUsername db' u = Some new.
Proof.
  unfold findUserByUsername. intros -> Hname Hnone.
  rewrite filter_app.
  destruct (filter _ (users db)); [|discriminate].
  rewrite filter_cons_True; [done|].
  unfold sql_text_eq. now apply bool_decide_eq_true.
Qed.

Section Accounts.
Context {B : Bcrypt}.

Lemma post_register_taken salt now db sess (u p : list N) usr :
  u <> [] -> passwordMeetsRequirements p = true ->
  findUserByUsername db u = Some usr ->
  post_register salt now db sess (credentials u p) = (db, sess, ConflictError).
Proof.
  intros Hu Hp Hfind. pose proof (passwordMeetsRequirements_nonempty _ Hp) as Hp'.
  unfold post_register, credentials; cbn [cr_username cr_password].
  apply truthy_text_Some in Hu, Hp'. rewrite Hu, Hp'. cbn [negb orb text].
  now rewrite Hp, Hfind.
Qed.

Lemma post_login_found db sess (u p : list N) usr :
  u <> [] -> p <> [] ->
  findUserByUsername db u = Some usr ->
  bcrypt_compare p (u_password_hash usr) = true ->
  post_login db sess (login_body u p) =
  (db, {| s_userId := Some (u_id usr); s_username := Some (u_username usr) |},
   json (BUser (u_id usr) (u_username usr))).
Proof.
  intros Hu Hp Hfind Hcmp.
  unfold post_login, login_body, login_with; cbn [lg_username lg_password].
  apply truthy_text_Some in Hu. apply truthy_string in Hp.
  rewrite Hu, Hp. cbn [negb orb text].
  now rewrite Hfind, Hcmp.
Qed.

(** Every writing route only appends to the users and albums tables. *)
Lemma handle_appends (r : Request) db sess :
  exists us als,
    users (out_db (handle r db sess)) = users db ++ us
    /\ albums (out_db (handle r db sess)) = albums db ++ als.
Proof.
  assert (exists us als, users db = users db ++ us /\ albums db = albums db ++ als)
    as Hsame by (exists [], []; now rewrite !app_nil_r).
  destruct r as [salt now c | c | now b | now b | now b]; cbn [handle].
  - unfold post_register.
    destruct (negb _ || negb _); [done|].
    destruct (negb (passwordMeetsRequirements _)); [done|].
    destruct (findUserByUsername db _); [done|].
    cbn. eexists _, []. split; [reflexivity | now rewrite app_nil_r].
  - now rewrite post_login_db.
  - unfold post_user_albums. destruct (requireLogin sess) as [n|]; [|done].
    destruct (negb _ || negb _ || negb _); [done|].
    destruct (findOrCreateAlbum_tables db (text (ab_externalId b)) (text (ab_title b))
                (text (ab_artist b)) (text_or_null (ab_coverUrl b)))
      as (Hu & _ & _ & _ & new & Ha).
    destruct (findOrCreateAlbum _ _ _ _ _) as [aid db1]. cbn [fst snd] in *.
    cbn [out_db fst snd].
    destruct (ensureUserAlbum_tables now db1 n aid) as (-> & -> & _).
    exists [], new. now rewrite app_nil_r.
  - unfold post_album_notes. destruct (requireLogin sess) as [n|]; [|done].
    destruct (negb _); [done|].
    destruct (findOrCreateAlbum_tables db (text (nb_albumExternalId b))
                (text_or (nb_albumTitle b) (js "Unknown album"))
                (text_or (nb_albumArtist b) (js "Unknown artist"))
                (text_or_null (nb_coverUrl b)))
      as (Hu & _ & _ & _ & new & Ha).
    destruct (findOrCreateAlbum _ _ _ _ _) as [aid db1]. cbn [fst snd] in *.
    cbn [out_db fst snd update_notes set_user_albums users albums].
    destruct (ensureUserAlbum_tables now db1 n aid) as (-> & -> & _).
    exists [], new. now rewrite app_nil_r.
  - unfold post_ratings. destruct (requireLogin sess) as [n|]; [|done].
    destruct (negb _ || negb _ || negb _ || JS.eq_null _); [done|].
    destruct (negb _ || _ || _); [done|].
    destruct (findOrCreateAlbum_tables db (text (rb_albumExternalId b))
                (text_or (rb_albumTitle b) (js "Unknown album"))
                (text_or (rb_albumArtist b) (js "Unknown artist"))
                (text_or_null (rb_coverUrl b)))
      as (Hu & _ & _ & _ & new & Ha).
    destruct (findOrCreateAlbum _ _ _ _ _) as [aid db1]. cbn [fst snd] in *.
    cbn [out_db fst snd set_track_ratings users albums].
    destruct (ensureUserAlbum_tables now db1 n aid) as (-> & -> & _).
    exists [], new. now rewrite app_nil_r.
Qed.

Lemma evolves_appends db db' :
  evolves db db' ->
  exists us als, users db' = users db ++ us /\ albums db' = albums db ++ als.
Proof.
  induction 1 as [|db' sess r _ (us & als & Hu & Ha)].
  - exists [], []. now rewrite !app_nil_r.
  - destruct (handle_appends r db' sess) as (us' & als' & -> & ->).
    rewrite Hu, Ha, <- !app_assoc. eauto.
Qed.

(** X4: a registration that succeeds can be used at once: when bcrypt
    recognises the hash it has just made, a login with the same username
    and password on the new store succeeds and opens a session for the id
    that registration returned. *)
Theorem register_then_login salt now db sess sess' (u p : list N) :
  u <> [] -> passwordMeetsRequirements p = true ->
  findUserByUsername db u = None ->
  bcrypt_compare p (bcrypt_hash p 10 salt) = true ->
  let o := post_register salt now db sess (credentials u p) in
  out_response o = json (BUser (next_user_id db) u)
  /\ post_login (out_db o) sess' (login_body u p) =
     (out_db o,
      {| s_userId := Some (next_user_id db); s_username := Some u |},
      json (BUser (next_user_id db) u)).
Proof.
  intros Hu Hp Hfree Hcmp o.
  destruct (post_register_success salt now db sess u p Hu Hp Hfree)
    as (Hresp & _ & Husers). fold o in Hresp, Husers.
  split; [done|].
  pose proof (findUserByUsername_new db (out_db o) u _ Husers eq_refl Hfree) as Hfind.
  rewrite (post_login_found _ _ _ _ _ Hu (passwordMeetsRequirements_nonempty _ Hp) Hfind)
    by exact Hcmp.
  done.
Qed.

(** X5: accounts are never removed or renamed: once a username is stored,
    it is found, with the same row, in every store the server gets to
    afterwards, and registering it again with a password that passes the
    check fails with "Username already taken" and writes nothing. *)
Theorem registered_username_stays_taken salt now db db' sess (u p : list N) usr :
  evolves db db' ->
  findUserByUsername db u = Some usr ->
  u <> [] -> passwordMeetsRequirements p = true ->
  findUserByUsername db' u = Some usr
  /\ post_register salt now db' sess (credentials u p) = (db', sess, ConflictError).
Proof.
  intros Hev Hfind Hu Hp.
  destruct (evolves_appends db db' Hev) as (us & _ & Husers & _).
  pose proof (findUserByUsername_app db db' u usr us Husers Hfind) as Hfind'.
  split; [done|]. now apply (post_register_taken _ _ _ _ _ _ usr).
Qed.

End Accounts.

Lemma register_then_login_witness :
  @post_login example_bcrypt db_with_bob no_session
    (login_body (js "bob") (js "Abcdef1!"))
  = (db_with_bob, bob_session, json (BUser 1 (js "bob"))).
Proof.
  apply (@register_then_login example_bcrypt (js "s1") 5%N empty_db no_session
           no_session (js "bob") (js "Abcdef1!")); (discriminate || reflexivity).
Defined.

Lemma registered_username_stays_taken_witness :
  let db' := out_db (@handle example_bcrypt
                       (SaveAlbum 8%N (album_request (js "A") (js "T")))
                       db_with_bob bob_session) in
  @post_register example_bcrypt (js "s2") 9%N db' no_session
    (credentials (js "bob") strong_password)
  = (db', no_session, ConflictError).
Proof.
  apply (@registered_username_stays_taken example_bcrypt (js "s2") 9%N
           db_with_bob _ no_session (js "bob") strong_password bob).
  - apply evolves_step, evolves_refl.
  - reflexivity.
  - discriminate.
  - reflexivity.
Defined.

(** ** Who is logged in: GET /api/me *)

Section Me.
Context {B : Bcrypt}.

Lemma handle_ids_started (r : Request) db sess :
  ids_started db -> ids_started (out_db (handle r db sess)).
Proof.
  intros [Hnext Hids].
  destruct r as [salt now c | c | now b | now b | now b]; cbn [handle].
  - unfold post_register.
    destruct (negb _ || negb _); [done|].
    destruct (negb (passwordMeetsRequirements _)); [done|].
    destruct (findUserByUsername db _); [done|].
    cbn. unfold ids_started. cbn. split; [lia|].
    apply Forall_app. split; [done|]. now constructor.
  - now rewrite post_login_db.
  - unfold post_user_albums. destruct (requireLogin sess) as [uid|]; [|done].
    destruct (negb _ || negb _ || negb _); [done|].
    destruct (findOrCreateAlbum_tables db (text (ab_externalId b)) (text (ab_title b))
                (text (ab_artist b)) (text_or_null (ab_coverUrl b)))
      as (Hu & _ & _ & Hn & _).
    destruct (findOrCreateAlbum _ _ _ _ _) as [aid db1]. cbn [fst snd] in *.
    cbn [out_db fst snd]. unfold ids_started, ensureUserAlbum.
    case_bool_decide; cbn; now rewrite Hu, Hn.
  - unfold post_album_notes. destruct (requireLogin sess) as [uid|]; [|done].
    destruct (negb _); [done|].
    destruct (findOrCreateAlbum_tables db (text (nb_albumExternalId b))
                (text_or (nb_albumTitle b) (js "Unknown album"))
                (text_or (nb_albumArtist b) (js "Unknown artist"))
                (text_or_null (nb_coverUrl b)))
      as (Hu & _ & _ & Hn & _).
    destruct (findOrCreateAlbum _ _ _ _ _) as [aid db1]. cbn [fst snd] in *.
    cbn [out_db fst snd]. unfold ids_started, update_notes, ensureUserAlbum.
    case_bool_decide; cbn; now rewrite Hu, Hn.
  - unfold post_ratings. destruct (requireLogin sess) as [uid|]; [|done].
    destruct (negb _ || negb _ || negb _ || JS.eq_null _); [done|].
    destruct (negb _ || _ || _); [done|].
    destruct (findOrCreateAlbum_tables db (text (rb_albumExternalId b))
                (text_or (rb_albumTitle b) (js "Unknown album"))
                (text_or (rb_albumArtist b) (js "Unknown artist"))
                (text_or_null (rb_coverUrl b)))
      as (Hu & _ & _ & Hn & _).
    destruct (findOrCreateAlbum _ _ _ _ _) as [aid db1]. cbn [fst snd] in *.
    cbn [out_db fst snd]. unfold ids_started, set_track_ratings, ensureUserAlbum.
    case_bool_decide; cbn; now rewrite Hu, Hn.
Qed.

Lemma reachable_ids_started db : reachable db -> ids_started db.
Proof.
  induction 1 as [|db sess r _ IH].
  - split; [reflexivity | constructor].
  - now apply handle_ids_started.
Qed.

(** X6: in a store the server has reached, the session that a successful
    login opens is the one GET /api/me reports: it answers with the id,
    the username and the creation time of the very row the login found. *)
Theorem login_then_me db sess (u p : list N) usr :
  reachable db ->
  u <> [] -> p <> [] ->
  findUserByUsername db u = Some usr ->
  bcrypt_compare p (u_password_hash usr) = true ->
  get_me db (out_session (post_login db sess (login_body u p)))
  = Some {| me_id := u_id usr; me_username := u;
            me_created_at := u_created_at usr |}.
Proof.
  intros Hreach Hu Hp Hfind Hcmp.
  rewrite (post_login_found _ _ _ _ _ Hu Hp Hfind Hcmp).
  destruct (findUserByUsername_Some _ _ _ Hfind) as [Hin Hname].
  destruct (reachable_ids_started db Hreach) as [_ Hids].
  rewrite Forall_forall in Hids. specialize (Hids usr Hin).
  pose proof (reachable_ok db Hreach) as Hok.
  unfold get_me. cbn [out_session fst snd s_userId].
  destruct (N.eqb_spec (u_id usr) 0) as [Hz | _]; [lia|].
  unfold select_user_by_id.
  rewrite (filter_unique_at u_id _ usr) by (try done; now destruct Hok).
  cbn. now rewrite Hname.
Qed.

End Me.

Lemma db_with_bob_reachable : @reachable example_bcrypt db_with_bob.
Proof.
  exact (@reachable_step example_bcrypt empty_db no_session
           (Register (js "s1") 5%N (credentials (js "bob") (js "Abcdef1!")))
           (@reachable_empty example_bcrypt)).
Qed.

Lemma login_then_me_witness :
  get_me db_with_bob
    (out_session (@post_login example_bcrypt db_with_bob no_session
                    (login_body (js "bob") (js "Abcdef1!"))))
  = Some {| me_id := 1; me_username := js "bob"; me_created_at := 5%N |}.
Proof.
  apply (@login_then_me example_bcrypt db_with_bob no_session (js "bob")
           (js "Abcdef1!") bob db_with_bob_reachable);
    (discriminate || reflexivity).
Defined.

(** ** Albums over time *)

Section Albums.
Context {B : Bcrypt}.

(** X7: albums are never rewritten or removed: once an external id names
    an album, every store the server gets to afterwards answers the lookup
    with the same row (same id, title, artist and cover), and
    [findOrCreateAlbum] returns that id without writing, whatever title,
    artist and cover it is called with. *)
Theorem album_is_never_rewritten db db' (e : list N) id rest :
  evolves db db' ->
  select_album_ids db e = id :: rest ->
  head (albums_with db' e) = head (albums_with db e)
  /\ forall (t a : list N) (c : option (list N)),
       findOrCreateAlbum db' e t a c = (id, db').
Proof.
  intros Hev Hsel.
  destruct (evolves_appends db db' Hev) as (_ & als & _ & Halb).
  unfold select_album_ids in Hsel.
  destruct (albums_with db e) as [|alb l] eqn:Hw; [discriminate|].
  injection Hsel as Hid _.
  assert (head (albums_with db' e) = Some alb) as Hhd.
  { unfold albums_with in *. rewrite Halb. apply head_filter_app. now rewrite Hw. }
  split; [done|]. intros t a c.
  unfold findOrCreateAlbum, select_album_ids.
  destruct (albums_with db' e) as [|alb' l']; [discriminate|].
  injection Hhd as ->. cbn. now rewrite Hid.
Qed.

End Albums.

Lemma album_is_never_rewritten_witness :
  let db := out_db (post_user_albums 8%N db_with_bob bob_session
                      (album_request (js "A") (js "First title"))) in
  let db' := out_db (@handle example_bcrypt
                       (SaveNotes 9%N (notes_request (js "A") JS.Null))
                       db bob_session) in
  findOrCreateAlbum db' (js "A") (js "Other title") (js "Other") None = (1%N, db').
Proof.
  intros db db'.
  apply (proj2 (@album_is_never_rewritten example_bcrypt db db' (js "A") 1%N []
                  (evolves_step db db bob_session _ (evolves_refl db)) eq_refl)).
Defined.

(** X8: in a store that satisfies its unique keys, albums with different
    external ids get different ids: resolving [e1] and then a different
    [e2] never returns the same album id. *)
Theorem distinct_external_ids_distinct_albums db (e1 t1 a1 : list N) c1
    (e2 t2 a2 : list N) c2 :
  db_ok db -> e1 <> e2 ->
  let r1 := findOrCreateAlbum db e1 t1 a1 c1 in
  let r2 := findOrCreateAlbum r1.2 e2 t2 a2 c2 in
  r1.1 <> r2.1.
Proof.
  intros Hok Hne r1 r2 Heq.
  destruct (findOrCreateAlbum_stored db e1 t1 a1 c1) as (alb1 & Hin1 & Hid1 & Hext1).
  destruct (findOrCreateAlbum_stored r1.2 e2 t2 a2 c2) as (alb2 & Hin2 & Hid2 & Hext2).
  fold r1 in Hin1, Hid1, Hin2, Hid2. fold r2 in Hin2, Hid2.
  destruct (findOrCreateAlbum_tables r1.2 e2 t2 a2 c2) as (_ & _ & _ & _ & new & Halb).
  fold r2 in Halb.
  assert (db_ok r2.2) as Hok2
    by (subst r2 r1; now apply findOrCreateAlbum_ok, findOrCreateAlbum_ok).
  apply Hne. rewrite <- Hext1, <- Hext2. f_equal.
  apply (unique_key_inj a_id (albums r2.2)); [now destruct Hok2 | | done |].
  - rewrite Halb. apply elem_of_app. now left.
  - now rewrite Hid1, Hid2.
Qed.

Lemma distinct_external_ids_distinct_albums_witness :
  (findOrCreateAlbum db_with_bob (js "A") (js "T") (js "X") None).1
  <> (findOrCreateAlbum
        (findOrCreateAlbum db_with_bob (js "A") (js "T") (js "X") None).2
        (js "B") (js "T") (js "X") None).1.
Proof.
  apply (distinct_external_ids_distinct_albums db_with_bob (js "A") (js "T")
           (js "X") None (js "B") (js "T") (js "X") None db_with_bob_ok).
  discriminate.
Defined.

(** X9: saving an album the user has already saved changes nothing: the
    second POST /api/user/albums for the same external id returns the same
    album id and leaves the whole store as the first left it, so the entry
    keeps its created_at and its notes, whatever title, artist, cover and
    time the second request carries. *)
Theorem post_user_albums_twice now1 now2 db sess uid req1 req2 :
  requireLogin sess = Some uid ->
  album_fields_present req1 = true ->
  album_fields_present req2 = true ->
  ab_externalId req2 = ab_externalId req1 ->
  let o1 := post_user_albums now1 db sess req1 in
  post_user_albums now2 (out_db o1) (out_session o1) req2
  = (out_db o1, sess, out_response o1).
Proof.
  intros Hlogin Hp1 Hp2 Hext o1. subst o1.
  rewrite (post_user_albums_checked now1 db sess uid req1) by done.
  cbn [out_db out_session out_response fst snd].
  rewrite (post_user_albums_checked _ _ _ uid) by done.
  set (found := findOrCreateAlbum db _ _ _ _).
  assert (albums (journaled now1 db uid req1) = albums found.2) as Halb
    by (unfold journaled; apply ensureUserAlbum_tables).
  unfold journaled at 1. rewrite Hext.
  rewrite (findOrCreateAlbum_again db _ _ _ _ (journaled now1 db uid req1)) by exact Halb.
  fold found. cbn [fst snd]. f_equal. f_equal.
  unfold ensureUserAlbum at 1. rewrite bool_decide_eq_true_2; [done|].
  unfold journaled. fold found. apply ensureUserAlbum_present.
Qed.

Lemma post_user_albums_twice_witness :
  let o1 := post_user_albums 8%N db_with_bob bob_session
              (album_request (js "A") (js "First title")) in
  post_user_albums 9%N (out_db o1) (out_session o1)
    (album_request (js "A") (js "Second title"))
  = (out_db o1, bob_session, out_response o1).
Proof.
  apply (post_user_albums_twice 8%N 9%N db_with_bob bob_session 1%N
           (album_request (js "A") (js "First title"))
           (album_request (js "A") (js "Second title"))
           eq_refl eq_refl eq_refl eq_refl).
Defined.

(** ** Which ratings are accepted *)

Lemma rating_in_range (n : JS.Num) :
  rating_out_of_range n = false <->
  exists (z : Z) (q : Q), n = JS.Finite q /\ Qeq q (inject_Z z) /\ (1 <= z <= 5)%Z.
Proof.
  unfold rating_out_of_range, JS.isInteger, JS.lt, JS.of_Z.
  split.
  - destruct n as [| neg | q]; try discriminate.
    rewrite !orb_false_iff, !negb_false_iff.
    intros [[Hint Hlow] Hhigh].
    apply Qeq_bool_iff in Hint. apply Qle_bool_iff in Hlow, Hhigh.
    exists (Qfloor q), q. split_and!; [done | now symmetry | |].
    + rewrite <- Hint in Hlow. now rewrite Zle_Qle.
    + rewrite <- Hint in Hhigh. now rewrite Zle_Qle.
  - intros (z & q & -> & Hq & Hz).
    assert (Qfloor q = z) as Hfloor by (rewrite Hq; apply Qfloor_Z).
    rewrite Hfloor.
    assert (Qeq_bool (inject_Z z) q = true) as ->
      by (apply Qeq_bool_iff; now symmetry).
    assert (Qle_bool (inject_Z 1) q = true) as ->
      by (apply Qle_bool_iff; rewrite Hq, <- Zle_Qle; lia).
    assert (Qle_bool q (inject_Z 5) = true) as ->
      by (apply Qle_bool_iff; rewrite Hq, <- Zle_Qle; lia).
    done.
Qed.

Lemma post_ratings_missing_rating now db sess uid req :
  requireLogin sess = Some uid ->
  JS.eq_null (rb_rating req) = true ->
  post_ratings now db sess req = (db, sess, fail 400 "Missing rating data").
Proof.
  intros Hlogin Hnull. unfold post_ratings. rewrite Hlogin, Hnull.
  now rewrite !orb_true_r.
Qed.

(** X10: for a logged-in user and a request that names album, track and
    track name, POST /api/user/ratings succeeds exactly when the rating
    field is neither absent nor null and [Number] of it is an integer
    from 1 to 5; so the boolean true and strings such as "4" pass, and
    null, false, the empty string and 2.5 do not. *)
Theorem post_ratings_accepted_iff now db sess uid req :
  requireLogin sess = Some uid ->
  rating_fields_present req = true ->
  out_response (post_ratings now db sess req) = json BSuccess <->
  JS.eq_null (rb_rating req) = false
  /\ exists (z : Z) (q : Q),
       JS.Number (rb_rating req) = JS.Finite q /\ Qeq q (inject_Z z)
       /\ (1 <= z <= 5)%Z.
Proof.
  intros Hlogin Hpresent.
  destruct (JS.eq_null (rb_rating req)) eqn:Hnull.
  - rewrite (post_ratings_missing_rating _ _ _ uid) by done.
    split; [intros E; cbv in E; discriminate E | intros [E _]; discriminate E].
  - rewrite (post_ratings_checked _ _ _ uid) by done.
    rewrite <- rating_in_range.
    destruct (rating_out_of_range _).
    + split; [intros E; cbv in E; discriminate E | intros [_ E]; discriminate E].
    + split; done.
Qed.

Lemma post_ratings_accepted_iff_witness :
  out_response
    (post_ratings 9%N db_with_bob bob_session
       (rating_request (js "A") (js "t1") (JS.Bool true)))
  = json BSuccess.
Proof.
  apply (post_ratings_accepted_iff 9%N db_with_bob bob_session 1%N
           (rating_request (js "A") (js "t1") (JS.Bool true)) eq_refl eq_refl).
  split; [reflexivity|]. exists 1%Z, 1%Q. split_and!; [reflexivity.. | lia | lia].
Defined.

(** ** What a rating request touches *)

Lemma upsert_rating_row_other now uid aid tid tn r rows row :
  tr_key row <> (uid, aid, tid) ->
  row ∈ upsert_rating_row now uid aid tid tn r rows <-> row ∈ rows.
Proof.
  intros Hother. induction rows as [|x rows IH]; cbn [upsert_rating_row].
  - split; [|inversion 1]. intros Hin. apply list_elem_of_singleton in Hin.
    subst row. now contradict Hother.
  - destruct (tr_key_is uid aid tid x) eqn:Hx.
    + apply tr_key_is_true in Hx. rewrite !elem_of_cons.
      split; intros [-> | Hin]; auto.
      * now contradict Hother.
      * congruence.
    + rewrite !elem_of_cons, IH. done.
Qed.

(** Rows are matched by key, and the upsert keeps the track name of the
    row it rewrites. *)
Lemma upsert_rating_row_keeps now uid aid tid tn r rows row :
  row ∈ rows ->
  exists row', row' ∈ upsert_rating_row now uid aid tid tn r rows
               /\ tr_key row' = tr_key row
               /\ tr_track_name row' = tr_track_name row.
Proof.
  induction rows as [|x rows IH]; intros Hin; [inversion Hin|].
  cbn [upsert_rating_row]. destruct (tr_key_is uid aid tid x) eqn:Hx.
  - apply elem_of_cons in Hin as [-> | Hin].
    + eexists. split; [left|]. done.
    + exists row. split; [now right | done].
  - apply elem_of_cons in Hin as [-> | Hin].
    + exists x. split; [left | done].
    + destruct (IH Hin) as (row' & Hin' & Hrow'). exists row'. split; [now right | done].
Qed.

(** X11: a rating request touches one key only: every rating row of
    another user, album or track is in the store afterwards exactly as it
    was before, and no such row appears. *)
Theorem post_ratings_touches_one_key now db sess uid req row :
  requireLogin sess = Some uid ->
  rating_fields_present req = true ->
  tr_key row <>
    (uid,
     (findOrCreateAlbum db (text (rb_albumExternalId req))
        (text_or (rb_albumTitle req) (js "Unknown album"))
        (text_or (rb_albumArtist req) (js "Unknown artist"))
        (text_or_null (rb_coverUrl req))).1,
     text (rb_trackId req)) ->
  row ∈ track_ratings (out_db (post_ratings now db sess req))
  <-> row ∈ track_ratings db.
Proof.
  intros Hlogin Hpresent Hother.
  destruct (JS.eq_null (rb_rating req)) eqn:Hnull.
  - now rewrite (post_ratings_missing_rating _ _ _ uid).
  - rewrite (post_ratings_checked _ _ _ uid) by done.
    destruct (rating_out_of_range _); [done|]. cbn [out_db fst].
    destruct (rated_tables now db uid req
                (integer_of (JS.Number (rb_rating req)))) as [_ ->].
    now apply upsert_rating_row_other.
Qed.

Lemma post_ratings_touches_one_key_witness :
  let db := out_db (post_ratings 8%N db_with_bob bob_session
                      (rating_request (js "A") (js "t1") (JS.Number_ (JS.of_Z 2)))) in
  let row := {| tr_user_id := 1; tr_album_id := 1; tr_track_id := js "t1";
                tr_track_name := js "Intro"; tr_rating := 2; tr_updated_at := 8%N |} in
  row ∈ track_ratings
          (out_db (post_ratings 9%N db bob_session
                     (rating_request (js "A") (js "t2") (JS.Number_ (JS.of_Z 5))))).
Proof.
  intros db row.
  apply (post_ratings_touches_one_key 9%N db bob_session 1%N
           (rating_request (js "A") (js "t2") (JS.Number_ (JS.of_Z 5))) row
           eq_refl eq_refl).
  - discriminate.
  - left.
Defined.

(** ** Journal entries and rating rows over time *)

Lemma post_album_notes_checked now db sess uid req :
  requireLogin sess = Some uid ->
  truthy_text (nb_albumExternalId req) = true ->
  post_album_notes now db sess req = (noted now db uid req, sess, json BSuccess).
Proof.
  intros Hlogin Halbum. unfold post_album_notes, noted.
  rewrite Hlogin, Halbum. cbn [negb].
  now destruct (findOrCreateAlbum _ _ _ _ _).
Qed.

Lemma ensureUserAlbum_keeps now db uid aid ua :
  ua ∈ user_albums db -> ua ∈ user_albums (ensureUserAlbum now db uid aid).
Proof.
  unfold ensureUserAlbum. case_bool_decide; [done|].
  cbn. intros Hin. apply elem_of_app. now left.
Qed.

Lemma update_notes_keeps db v uid aid ua :
  ua ∈ user_albums db ->
  exists ua', ua' ∈ user_albums (update_notes db v uid aid)
              /\ ua_key ua' = ua_key ua
              /\ ua_created_at ua' = ua_created_at ua.
Proof.
  intros Hin. unfold update_notes. cbn [user_albums set_user_albums].
  eexists. split; [apply list_elem_of_fmap_2, Hin|].
  now case_bool_decide.
Qed.

Lemma journaled_tables now db uid req :
  track_ratings (journaled now db uid req) = track_ratings db
  /\ forall ua, ua ∈ user_albums db -> ua ∈ user_albums (journaled now db uid req).
Proof.
  unfold journaled.
  set (found := findOrCreateAlbum _ _ _ _ _).
  destruct (findOrCreateAlbum_tables db (text (ab_externalId req)) (text (ab_title req))
              (text (ab_artist req)) (text_or_null (ab_coverUrl req)))
    as (_ & Hua & Htr & _). fold found in Hua, Htr.
  destruct (ensureUserAlbum_tables now found.2 uid found.1) as (_ & _ & -> & _).
  split; [done|]. intros ua Hin. apply ensureUserAlbum_keeps. now rewrite Hua.
Qed.

Lemma noted_tables now db uid req :
  track_ratings (noted now db uid req) = track_ratings db
  /\ forall ua, ua ∈ user_albums db ->
       exists ua', ua' ∈ user_albums (noted now db uid req)
                   /\ ua_key ua' = ua_key ua
                   /\ ua_created_at ua' = ua_created_at ua.
Proof.
  unfold noted.
  set (found := findOrCreateAlbum _ _ _ _ _).
  destruct (findOrCreateAlbum_tables db (text (nb_albumExternalId req))
              (text_or (nb_albumTitle req) (js "Unknown album"))
              (text_or (nb_albumArtist req) (js "Unknown artist"))
              (text_or_null (nb_coverUrl req)))
    as (_ & Hua & Htr & _). fold found in Hua, Htr.
  split.
  - cbn [update_notes set_user_albums track_ratings].
    destruct (ensureUserAlbum_tables now found.2 uid found.1) as (_ & _ & -> & _).
    done.
  - intros ua Hin. apply update_notes_keeps, ensureUserAlbum_keeps.
    now rewrite Hua.
Qed.

Lemma rated_user_albums now db uid req r ua :
  ua ∈ user_albums db -> ua ∈ user_albums (rated now db uid req r).
Proof.
  intros Hin. unfold rated. cbn [set_track_ratings user_albums].
  apply ensureUserAlbum_keeps.
  destruct (findOrCreateAlbum_tables db (text (rb_albumExternalId req))
              (text_or (rb_albumTitle req) (js "Unknown album"))
              (text_or (rb_albumArtist req) (js "Unknown artist"))
              (text_or_null (rb_coverUrl req)))
    as (_ & -> & _). done.
Qed.

Section Persistence.
Context {B : Bcrypt}.

(** What a writing request leaves of the journal entries and of the rating
    rows: each is still there under its key, with its created_at and its
    track name. *)
Lemma handle_keeps_rows (r : Request) db sess :
  (forall ua, ua ∈ user_albums db ->
     exists ua', ua' ∈ user_albums (out_db (handle r db sess))
                 /\ ua_key ua' = ua_key ua
                 /\ ua_created_at ua' = ua_created_at ua)
  /\ (forall row, row ∈ track_ratings db ->
        exists row', row' ∈ track_ratings (out_db (handle r db sess))
                     /\ tr_key row' = tr_key row
                     /\ tr_track_name row' = tr_track_name row).
Proof.
  assert ((forall ua, ua ∈ user_albums db ->
             exists ua', ua' ∈ user_albums db /\ ua_key ua' = ua_key ua
                         /\ ua_created_at ua' = ua_created_at ua)
          /\ (forall row, row ∈ track_ratings db ->
                exists row', row' ∈ track_ratings db /\ tr_key row' = tr_key row
                             /\ tr_track_name row' = tr_track_name row)) as Hsame
    by (split; eauto).
  destruct r as [salt now c | c | now b | now b | now b]; cbn [handle].
  - unfold post_register.
    destruct (negb _ || negb _); [done|].
    destruct (negb (passwordMeetsRequirements _)); [done|].
    destruct (findUserByUsername db _); done.
  - now rewrite post_login_db.
  - unfold post_user_albums. destruct (requireLogin sess) as [uid|] eqn:Hlogin; [|done].
    destruct (negb _ || negb _ || negb _) eqn:Hguard; [done|].
    pose proof (journaled_tables now db uid b) as [Htr Hua].
    unfold journaled in Htr, Hua.
    destruct (findOrCreateAlbum _ _ _ _ _) as [aid db1]. cbn [fst snd] in *.
    cbn [out_db fst snd]. rewrite Htr. split; eauto.
  - unfold post_album_notes. destruct (requireLogin sess) as [uid|]; [|done].
    destruct (negb _); [done|].
    pose proof (noted_tables now db uid b) as [Htr Hua].
    unfold noted in Htr, Hua.
    destruct (findOrCreateAlbum _ _ _ _ _) as [aid db1]. cbn [fst snd] in *.
    cbn [out_db fst snd]. rewrite Htr. split; eauto.
  - unfold post_ratings. destruct (requireLogin sess) as [uid|]; [|done].
    destruct (negb _ || negb _ || negb _ || JS.eq_null _); [done|].
    destruct (negb _ || _ || _); [done|].
    set (z := integer_of (JS.Number (rb_rating b))).
    pose proof (rated_user_albums now db uid b z) as Hua.
    pose proof (rated_tables now db uid b z) as [_ Htr].
    unfold rated in Hua, Htr.
    destruct (findOrCreateAlbum _ _ _ _ _) as [aid db1]. cbn [fst snd] in *.
    cbn [out_db fst snd]. split; [eauto|].
    intros row Hin. rewrite Htr. now apply upsert_rating_row_keeps.
Qed.

Lemma evolves_keeps_rows db db' :
  evolves db db' ->
  (forall ua, ua ∈ user_albums db ->
     exists ua', ua' ∈ user_albums db' /\ ua_key ua' = ua_key ua
                 /\ ua_created_at ua' = ua_created_at ua)
  /\ (forall row, row ∈ track_ratings db ->
        exists row', row' ∈ track_ratings db' /\ tr_key row' = tr_key row
                     /\ tr_track_name row' = tr_track_name row).
Proof.
  induction 1 as [|db' sess r _ [IHua IHtr]]; [split; eauto|].
  destruct (handle_keeps_rows r db' sess) as [Hua Htr]. split.
  - intros ua Hin. destruct (IHua ua Hin) as (ua1 & Hin1 & Hk1 & Hc1).
    destruct (Hua ua1 Hin1) as (ua2 & Hin2 & Hk2 & Hc2).
    exists ua2. split_and!; congruence.
  - intros row Hin. destruct (IHtr row Hin) as (row1 & Hin1 & Hk1 & Hn1).
    destruct (Htr row1 Hin1) as (row2 & Hin2 & Hk2 & Hn2).
    exists row2. split_and!; congruence.
Qed.


(** X13: a rating row is never removed and keeps the track name of the
    first rating of that track: later requests for the same key change the
    rating and updated_at only, whatever trackName they carry. *)
Theorem rating_row_keeps_track_name db db' row :
  evolves db db' ->
  row ∈ track_ratings db ->
  exists row', row' ∈ track_ratings db' /\ tr_key row' = tr_key row
               /\ tr_track_name row' = tr_track_name row.
Proof. intros Hev Hin. now apply (evolves_keeps_rows db db' Hev). Qed.

End Persistence.


Lemma rating_row_keeps_track_name_witness :
  let db' := out_db (@handle example_bcrypt (SaveRating 20%N renamed_rating)
                       (out_db bob_rated) bob_session) in
  exists row', row' ∈ track_ratings db' /\ tr_key row' = (1%N, 1%N, js "t1")
               /\ tr_track_name row' = js "Intro".
Proof.
  intros db'.
  apply (@rating_row_keeps_track_name example_bcrypt (out_db bob_rated) db'
           {| tr_user_id := 1; tr_album_id := 1; tr_track_id := js "t1";
              tr_track_name := js "Intro"; tr_rating := 3; tr_updated_at := 8%N |}).
  - apply evolves_step, evolves_refl.
  - left.
Defined.

(** ** Reading back what was written *)

Lemma joined_albums_elem db uid row :
  row ∈ joined_albums db uid <->
  exists ua a, ua ∈ user_albums db /\ ua_user_id ua = uid
               /\ a ∈ albums db /\ a_id a = ua_album_id ua
               /\ row = album_row ua a.
Proof.
  unfold joined_albums. rewrite list_elem_of_bind. split.
  - intros (ua & Hrow & Hua). apply list_elem_of_filter in Hua as [Hu Hua].
    apply list_elem_of_bind in Hrow as (a & Hrow & Ha).
    apply list_elem_of_filter in Ha as [Hid Ha].
    apply list_elem_of_singleton in Hrow. exists ua, a. done.
  - intros (ua & a & Hua & Hu & Ha & Hid & ->). exists ua. split.
    + apply list_elem_of_bind. exists a. split; [left|].
      now apply list_elem_of_filter.
    + now apply list_elem_of_filter.
Qed.

Lemma listing_elem db sess uid :
  requireLogin sess = Some uid ->
  exists rows, get_user_albums db sess = json (BAlbums rows)
               /\ forall row, row ∈ rows <-> row ∈ joined_albums db uid.
Proof.
  intros Hlogin.
  destruct (get_user_albums_sorted db sess uid Hlogin) as (rows & Hrows & _ & Hperm).
  exists rows. split; [done|]. intros row. now rewrite Hperm.
Qed.

(** X14: the ratings of a user can be read back: in a store that
    satisfies its unique keys, after an accepted rating of a track whose
    id is not "__proto__", GET /api/user/ratings/:externalId for that album
    answers a mapping that holds, under the track id, that track id and
    the rating just sent. *)
Theorem rate_then_get_ratings now db sess uid req (z : Z) (q : Q) :
  db_ok db ->
  requireLogin sess = Some uid ->
  rating_fields_present req = true ->
  JS.eq_null (rb_rating req) = false ->
  JS.Number (rb_rating req) = JS.Finite q -> Qeq q (inject_Z z) ->
  (1 <= z <= 5)%Z ->
  text (rb_trackId req) <> js "__proto__" ->
  let o := post_ratings now db sess req in
  exists m entry,
    get_ratings (out_db o) (out_session o) (text (rb_albumExternalId req))
    = json (BRatings m)
    /\ m !! text (rb_trackId req) = Some entry
    /\ trackId entry = text (rb_trackId req) /\ rating entry = z.
Proof.
  intros Hok Hlogin Hpresent Hnull Hnum Hq Hz Hkey o. subst o.
  rewrite (post_ratings_checked _ _ _ uid) by done.
  assert (rating_out_of_range (JS.Number (rb_rating req)) = false) as ->
    by (apply rating_in_range; eauto).
  cbn [out_db out_session fst snd].
  assert (integer_of (JS.Number (rb_rating req)) = z) as ->
    by (rewrite Hnum; cbn; rewrite Hq; apply Qfloor_Z).
  pose proof (rated_ok now db uid req z Hok) as Hok'.
  destruct (rated_tables now db uid req z) as [Halb Hrows].
  set (found := findOrCreateAlbum db _ _ _ _) in *.
  destruct (findOrCreateAlbum_select db (text (rb_albumExternalId req))
              (text_or (rb_albumTitle req) (js "Unknown album"))
              (text_or (rb_albumArtist req) (js "Unknown artist"))
              (text_or_null (rb_coverUrl req))) as [rest Hsel].
  fold found in Hsel.
  rewrite <- (select_album_ids_albums _ (rated now db uid req z)) in Hsel
    by exact Halb.
  destruct (get_ratings_mapping _ sess uid _ _ _ Hok' Hlogin Hsel)
    as (m & Hget & _ & Hm).
  destruct (upsert_rating_row_stored now uid found.1 (text (rb_trackId req))
              (text (rb_trackName req)) z (track_ratings db))
    as (row & Hin & Hrowkey & Hrating & _).
  rewrite <- Hrows in Hin.
  exists m, (rating_entry row). split; [done|]. split.
  - apply Hm; [done|]. exists row. done.
  - injection Hrowkey as _ _ Htid. done.
Qed.

Lemma rate_then_get_ratings_witness :
  exists m entry,
    get_ratings (out_db bob_rated) (out_session bob_rated) (js "A")
    = json (BRatings m)
    /\ m !! js "t1" = Some entry
    /\ trackId entry = js "t1" /\ rating entry = 3%Z.
Proof.
  apply (rate_then_get_ratings 8%N db_with_bob bob_session 1%N
           (rating_request (js "A") (js "t1") (JS.Number_ (JS.of_Z 3))) 3%Z 3%Q
           db_with_bob_ok eq_refl eq_refl eq_refl eq_refl).
  - reflexivity.
  - lia.
  - discriminate.
Defined.

(** X15: what GET /api/user/ratings/:externalId answers to a logged-in
    user in a store that satisfies its unique keys: the empty mapping when
    no album has that external id; otherwise a mapping that never has the
    key "__proto__" and, under any other key, holds an entry exactly when
    this user has a rating row for that track of the album, the entry
    being that row's track id, track name and rating.  Rows of other users
    and other albums never show. *)
Theorem get_ratings_answer db sess uid (e : list N) :
  db_ok db ->
  requireLogin sess = Some uid ->
  exists m, get_ratings db sess e = json (BRatings m)
    /\ m !! js "__proto__" = None
    /\ (select_album_ids db e = [] -> m = ∅)
    /\ forall aid rest, select_album_ids db e = aid :: rest ->
       forall k entry, k <> js "__proto__" ->
         (m !! k = Some entry <->
          exists row, row ∈ track_ratings db /\ tr_key row = (uid, aid, k)
                      /\ entry = rating_entry row).
Proof.
  intros Hok Hlogin.
  destruct (select_album_ids db e) as [|aid rest] eqn:Hsel.
  - exists ∅. rewrite (get_ratings_unknown_album _ _ uid) by done.
    split_and!; [done | apply lookup_empty | done | discriminate].
  - destruct (get_ratings_mapping db sess uid e aid rest Hok Hlogin Hsel)
      as (m & Hget & Hproto & Hm).
    exists m. split_and!; [done | done | discriminate |].
    intros aid' rest' [= <- <-]. exact Hm.
Qed.

Lemma get_ratings_answer_witness :
  exists m, get_ratings db_with_bob bob_session (js "nowhere") = json (BRatings m)
            /\ m = ∅.
Proof.
  destruct (get_ratings_answer db_with_bob bob_session 1%N (js "nowhere")
              db_with_bob_ok eq_refl) as (m & Hget & _ & Hempty & _).
  exists m. split; [exact Hget | exact (Hempty eq_refl)].
Defined.



(** X17: rating a track journals its album: after an accepted rating the
    listing of the user has a row for the album of the request, also when
    the user never saved that album. *)
Theorem rating_journals_album now db sess uid req :
  requireLogin sess = Some uid ->
  out_response (post_ratings now db sess req) = json BSuccess ->
  let o := post_ratings now db sess req in
  exists rows row,
    get_user_albums (out_db o) (out_session o) = json (BAlbums rows)
    /\ row ∈ rows /\ r_external_id row = text (rb_albumExternalId req).
Proof.
  intros Hlogin Hsuccess o. subst o. revert Hsuccess.
  unfold post_ratings. rewrite Hlogin.
  destruct (negb _ || negb _ || negb _ || JS.eq_null _);
    [intros E; cbv in E; discriminate E|].
  destruct (negb _ || _ || _); [intros E; cbv in E; discriminate E|].
  intros _.
  destruct (findOrCreateAlbum_stored db (text (rb_albumExternalId req))
              (text_or (rb_albumTitle req) (js "Unknown album"))
              (text_or (rb_albumArtist req) (js "Unknown artist"))
              (text_or_null (rb_coverUrl req))) as (alb & HinA & Hid & Hext).
  destruct (findOrCreateAlbum _ _ _ _ _) as [aid db1]. cbn [fst snd] in *.
  cbn [out_db out_session fst snd].
  set (db3 := set_track_ratings _ _).
  destruct (listing_elem db3 sess uid Hlogin) as (rows & Hget & Hrows).
  pose proof (ensureUserAlbum_present now db1 uid aid) as Hkey.
  apply list_elem_of_fmap in Hkey as (ua & Hkey & Hua).
  exists rows, (album_row ua alb). split; [done|]. split; [|done].
  apply Hrows, joined_albums_elem. exists ua, alb.
  injection Hkey as Hu Ha. split_and!; try done.
  - subst db3. cbn [set_track_ratings albums].
    destruct (ensureUserAlbum_tables now db1 uid aid) as (_ & -> & _). done.
  - congruence.
Qed.

Lemma rating_journals_album_witness :
  exists rows row,
    get_user_albums (out_db bob_rated) (out_session bob_rated) = json (BAlbums rows)
    /\ row ∈ rows /\ r_external_id row = js "A".
Proof.
  apply (rating_journals_album 8%N db_with_bob bob_session 1%N
           (rating_request (js "A") (js "t1") (JS.Number_ (JS.of_Z 3)))
           eq_refl eq_refl).
Defined.

(** ** Albums first seen without a title *)

Section Stores.
Context {B : Bcrypt}.

(** X18: an album that is first seen through a notes request without
    title and artist is stored as "Unknown album" by "Unknown artist", and
    since albums are never rewritten it stays so in every later store,
    whatever title later requests carry for the same external id. *)
Theorem untitled_album_stays_unknown now db db' sess uid req :
  requireLogin sess = Some uid ->
  truthy_text (nb_albumExternalId req) = true ->
  select_album_ids db (text (nb_albumExternalId req)) = [] ->
  truthy_text (nb_albumTitle req) = false ->
  truthy_text (nb_albumArtist req) = false ->
  evolves (out_db (post_album_notes now db sess req)) db' ->
  head (albums_with db' (text (nb_albumExternalId req)))
  = Some {| a_id := next_album_id db;
            a_external_id := text (nb_albumExternalId req);
            a_title := js "Unknown album"; a_artist := js "Unknown artist";
            a_cover_url := text_or_null (nb_coverUrl req) |}.
Proof.
  intros Hlogin Halbum Hnew Htitle Hartist Hev.
  rewrite (post_album_notes_checked _ _ _ uid) in Hev by done.
  cbn [out_db fst] in Hev.
  destruct (evolves_appends _ _ Hev) as (_ & als & _ & Halb).
  unfold albums_with. rewrite Halb. apply head_filter_app.
  assert (albums (noted now db uid req) =
          albums (insert_album db (text (nb_albumExternalId req))
                    (js "Unknown album") (js "Unknown artist")
                    (text_or_null (nb_coverUrl req))).2) as ->.
  { unfold noted. cbn [update_notes set_user_albums albums].
    destruct (ensureUserAlbum_tables now
                (findOrCreateAlbum db (text (nb_albumExternalId req))
                   (text_or (nb_albumTitle req) (js "Unknown album"))
                   (text_or (nb_albumArtist req) (js "Unknown artist"))
                   (text_or_null (nb_coverUrl req))).2 uid
                (findOrCreateAlbum db (text (nb_albumExternalId req))
                   (text_or (nb_albumTitle req) (js "Unknown album"))
                   (text_or (nb_albumArtist req) (js "Unknown artist"))
                   (text_or_null (nb_coverUrl req))).1) as (_ & -> & _).
    unfold findOrCreateAlbum, text_or. now rewrite Hnew, Htitle, Hartist. }
  apply select_album_ids_nil in Hnew.
  change (filter _ (albums ?d)) with (albums_with d (text (nb_albumExternalId req))).
  now rewrite albums_with_insert.
Qed.

Lemma findOrCreateAlbum_album_ids db e t a c :
  album_ids_started db -> album_ids_started (findOrCreateAlbum db e t a c).2.
Proof.
  intros [Hnext Hids]. unfold findOrCreateAlbum.
  destruct (select_album_ids db e); [|done].
  unfold album_ids_started. cbn. split; [lia|].
  apply Forall_app. split; [done|]. now constructor.
Qed.

Lemma ensureUserAlbum_album_ids now db uid aid :
  album_ids_started db -> album_ids_started (ensureUserAlbum now db uid aid).
Proof.
  unfold album_ids_started.
  destruct (ensureUserAlbum_tables now db uid aid) as (_ & -> & _ & ->). done.
Qed.

Lemma handle_album_ids_started (r : Request) db sess :
  album_ids_started db -> album_ids_started (out_db (handle r db sess)).
Proof.
  intros Hstarted.
  destruct r as [salt now c | c | now b | now b | now b]; cbn [handle].
  - unfold post_register.
    destruct (negb _ || negb _); [done|].
    destruct (negb (passwordMeetsRequirements _)); [done|].
    destruct (findUserByUsername db _); done.
  - now rewrite post_login_db.
  - unfold post_user_albums. destruct (requireLogin sess) as [uid|]; [|done].
    destruct (negb _ || negb _ || negb _); [done|].
    pose proof (findOrCreateAlbum_album_ids db (text (ab_externalId b))
                  (text (ab_title b)) (text (ab_artist b))
                  (text_or_null (ab_coverUrl b)) Hstarted) as Hfound.
    destruct (findOrCreateAlbum _ _ _ _ _) as [aid db1]. cbn [fst snd] in *.
    now apply ensureUserAlbum_album_ids.
  - unfold post_album_notes. destruct (requireLogin sess) as [uid|]; [|done].
    destruct (negb _); [done|].
    pose proof (findOrCreateAlbum_album_ids db (text (nb_albumExternalId b))
                  (text_or (nb_albumTitle b) (js "Unknown album"))
                  (text_or (nb_albumArtist b) (js "Unknown artist"))
                  (text_or_null (nb_coverUrl b)) Hstarted) as Hfound.
    destruct (findOrCreateAlbum _ _ _ _ _) as [aid db1]. cbn [fst snd] in *.
    cbn [out_db fst snd].
    now apply (ensureUserAlbum_album_ids now db1 uid aid) in Hfound.
  - unfold post_ratings. destruct (requireLogin sess) as [uid|]; [|done].
    destruct (negb _ || negb _ || negb _ || JS.eq_null _); [done|].
    destruct (negb _ || _ || _); [done|].
    pose proof (findOrCreateAlbum_album_ids db (text (rb_albumExternalId b))
                  (text_or (rb_albumTitle b) (js "Unknown album"))
                  (text_or (rb_albumArtist b) (js "Unknown artist"))
                  (text_or_null (rb_coverUrl b)) Hstarted) as Hfound.
    destruct (findOrCreateAlbum _ _ _ _ _) as [aid db1]. cbn [fst snd] in *.
    cbn [out_db fst snd].
    now apply (ensureUserAlbum_album_ids now db1 uid aid) in Hfound.
Qed.

Lemma reachable_album_ids_started db : reachable db -> album_ids_started db.
Proof.
  induction 1 as [|db sess r _ IH].
  - split; [reflexivity | constructor].
  - now apply handle_album_ids_started.
Qed.

(** X19: every store the server reaches from the empty one satisfies the
    unique keys of the data model -- user ids, usernames, album ids,
    external ids, (user, album) pairs and (user, album, track) triples are
    without duplicates -- and its user ids and album ids are positive and
    below the counters; so in a run of requests served one after the other
    no INSERT meets a duplicate key. *)
Theorem reachable_store_invariants db :
  reachable db -> db_ok db /\ ids_started db /\ album_ids_started db.
Proof.
  intros Hreach. split_and!.
  - now apply reachable_ok.
  - now apply reachable_ids_started.
  - now apply reachable_album_ids_started.
Qed.

End Stores.

Lemma untitled_album_stays_unknown_witness :
  let db := out_db (post_album_notes 6%N db_with_bob bob_session
                      (notes_request (js "A") (JS.String_ (js "hello")))) in
  let db' := out_db (@handle example_bcrypt
                       (SaveAlbum 7%N (album_request (js "A") (js "Real title")))
                       db bob_session) in
  head (albums_with db' (js "A"))
  = Some {| a_id := 1; a_external_id := js "A"; a_title := js "Unknown album";
            a_artist := js "Unknown artist"; a_cover_url := None |}.
Proof.
  intros db db'.
  apply (@untitled_album_stays_unknown example_bcrypt 6%N db_with_bob db'
           bob_session 1%N (notes_request (js "A") (JS.String_ (js "hello")))
           eq_refl eq_refl eq_refl eq_refl eq_refl).
  apply evolves_step, evolves_refl.
Defined.

Lemma reachable_store_invariants_witness :
  db_ok db_with_bob /\ ids_started db_with_bob /\ album_ids_started db_with_bob.
Proof.
  exact (@reachable_store_invariants example_bcrypt db_with_bob
           db_with_bob_reachable).
Defined.

(** ** Registration logs the user in *)

Section RegisterSession.
Context {B : Bcrypt}.

(** X20: in a store the server has reached, a registration that succeeds
    leaves the client logged in as the new user: the session passes
    [requireLogin] with the new id, and GET /api/me answers with that id,
    the username and the time of the registration. *)
Theorem register_opens_session salt now db sess (u p : list N) :
  reachable db ->
  u <> [] -> passwordMeetsRequirements p = true ->
  findUserByUsername db u = None ->
  let o := post_register salt now db sess (credentials u p) in
  requireLogin (out_session o) = Some (next_user_id db)
  /\ get_me (out_db o) (out_session o)
     = Some {| me_id := next_user_id db; me_username := u;
               me_created_at := now |}.
Proof.
  intros Hreach Hu Hp Hfree o.
  destruct (post_register_success salt now db sess u p Hu Hp Hfree)
    as (_ & Hsess & Husers). fold o in Hsess, Husers.
  destruct (reachable_ids_started db Hreach) as [Hnext _].
  pose proof (reachable_ok db Hreach) as Hok.
  assert ((next_user_id db =? 0)%N = false) as Hnz by (apply N.eqb_neq; lia).
  rewrite Hsess. unfold requireLogin, get_me. cbn [s_userId]. rewrite Hnz.
  split; [done|].
  unfold select_user_by_id. rewrite Husers, filter_app.
  rewrite (filter_none _ (users db)).
  - now rewrite filter_cons_True.
  - intros usr Hin Hid. destruct Hok as [_ _ Hfresh _ _ _ _ _].
    rewrite Forall_forall in Hfresh. specialize (Hfresh usr Hin). lia.
Qed.

End RegisterSession.

Lemma register_opens_session_witness :
  requireLogin bob_session = Some 1%N
  /\ get_me db_with_bob bob_session
     = Some {| me_id := 1; me_username := js "bob"; me_created_at := 5%N |}.
Proof.
  apply (@register_opens_session example_bcrypt (js "s1") 5%N empty_db no_session
           (js "bob") (js "Abcdef1!") (@reachable_empty example_bcrypt));
    (discriminate || reflexivity).
Defined.
